(** * EXT_property_animation: keyframe decoding and target-path resolution

    A shallow embedding of
    [loaders/src/glTF/2.0/Extensions/EXT_property_animation.ts]:
    the registry literal [pathProperties], the path walk of
    [_getAnimationObject], the sampler cache of
    [_loadAnimationSamplerAsync] and the keyframe construction of
    [_loadAnimationChannelAsync]. *)

From Stdlib Require Import ZArith Lia Ascii String DecimalString DecimalNat.
From stdpp Require Import base list strings.

Open Scope string_scope.
Open Scope list_scope.

(** ** Errors and the state-and-error monad *)

(** What the TypeScript code can throw: [Thrown] is a
    [throw new Error(message)] written in this file, [TypeError] is
    the runtime's (a property read on [null], a call of something that
    is no function), [Raised] comes from a collaborator outside the
    file ([ArrayItem.Get], the body of a [_getTarget]). *)
Inductive Error : Type :=
| Thrown (message : string)
| TypeError
| Raised (message : string).

Inductive Result (A : Type) : Type :=
| Ok (a : A)
| Err (e : Error).
Arguments Ok {A} a.
Arguments Err {A} e.

(** A computation over a mutable store that may throw. *)
Definition M (Store A : Type) : Type := Store -> Result A * Store.

Definition ret {Store A : Type} (a : A) : M Store A := fun s => (Ok a, s).

Definition throw {Store A : Type} (e : Error) : M Store A := fun s => (Err e, s).

Definition lift {Store A : Type} (r : Result A) : M Store A := fun s => (r, s).

Definition bind {Store A B : Type} (m : M Store A) (k : A -> M Store B) : M Store B :=
  fun s =>
    match m s with
    | (Ok a, s') => k a s'
    | (Err e, s') => (Err e, s')
    end.

Declare Scope js_scope.
Delimit Scope js_scope with js.
Notation "x <- c ;; k" := (bind c (fun x => k))
  (at level 100, c at next level, right associativity) : js_scope.
Open Scope js_scope.

(** ** JavaScript values met by the path walk *)

(** The functions of the file that are stored as values: the two
    [_getTarget] literals of the registry. [HostFn] stands for any
    other function object of the runtime. *)
Inductive FnId : Type :=
| LightsGetTarget
| MaterialsGetTarget
| HostFn (n : nat).

#[warnings="-register-all"]
Inductive JSValue : Type :=
| JSUndefined
| JSNull
| JSBool (b : bool)
| JSNum (n : Z)
| JSStr (s : string)
| JSFun (f : FnId)
| JSObj (props : list (string * JSValue))
| JSHost (h : nat).

Definition isUndefined (v : JSValue) : bool :=
  match v with JSUndefined => true | _ => false end.

(** [v == undefined]: true of [undefined] and of [null]. *)
Definition isNullish (v : JSValue) : bool :=
  match v with JSUndefined | JSNull => true | _ => false end.

(** The truth value of [v] in [if (v)]. *)
Definition truthy (v : JSValue) : bool :=
  match v with
  | JSUndefined | JSNull => false
  | JSBool b => b
  | JSNum n => negb (Z.eqb n 0)
  | JSStr s => negb (String.eqb s "")
  | JSFun _ | JSObj _ | JSHost _ => true
  end.

Fixpoint ownProperty (key : string) (props : list (string * JSValue)) : option JSValue :=
  match props with
  | [] => None
  | (k, v) :: rest => if String.eqb k key then Some v else ownProperty key rest
  end.

(** What a function call produces. *)
Inductive Outcome : Type :=
| Returned (v : JSValue)
| Throws (message : string).

(** The runtime and the scene outside the file: [inherited v key] is
    the value of [v[key]] when [key] is no own property written in an
    object literal of the file (the prototype chain, and every
    property of a primitive), [invoke f index] is the call
    [f(gltf, index)] against the loaded scene ([index] is [None] for
    [undefined]), and [display v] is the text [Array.prototype.join]
    gives an element that is no string, and [coercesTo v n] is
    [v == n] for a [v] that is no number. *)
Class Host : Type := {
  inherited : JSValue -> string -> JSValue;
  invoke : FnId -> option string -> Outcome;
  display : JSValue -> string;
  coercesTo : JSValue -> Z -> bool
}.

(** [v[key]]. *)
Definition getProperty `{Host} (v : JSValue) (key : string) : Result JSValue :=
  match v with
  | JSUndefined | JSNull => Err TypeError
  | JSObj props =>
      match ownProperty key props with
      | Some x => Ok x
      | None => Ok (inherited v key)
      end
  | _ => Ok (inherited v key)
  end.

(** [v == n] for a number [n]. *)
Definition looselyEquals `{Host} (v : JSValue) (n : Z) : bool :=
  match v with
  | JSNum m => Z.eqb m n
  | JSUndefined | JSNull => false
  | _ => coercesTo v n
  end.

(** One call of a lookup function, as the log of the walk records it. *)
Definition Call : Type := FnId * option string.

(** [fn(gltf, index)], recorded in the log. *)
Definition callFunction `{Host} (fn : JSValue) (index : option string) : M (list Call) JSValue :=
  fun log =>
    match fn with
    | JSFun f =>
        match invoke f index with
        | Returned v => (Ok v, log ++ [(f, index)])
        | Throws m => (Err (Raised m), log ++ [(f, index)])
        end
    | _ => (Err TypeError, log)
    end.

(** [s.split(sep)] for a separator of one character. *)
Fixpoint split (sep : ascii) (s : string) : list string :=
  match s with
  | EmptyString => [EmptyString]
  | String c s' =>
      if Ascii.eqb c sep then EmptyString :: split sep s'
      else match split sep s' with
           | [] => [String c EmptyString]
           | part :: parts => String c part :: parts
           end
  end.

(** The text of one array element in [join]. *)
Definition elementText `{Host} (v : JSValue) : string :=
  match v with
  | JSStr s => s
  | JSUndefined | JSNull => ""
  | _ => display v
  end.

(** [items.join(sep)]. *)
Fixpoint join `{Host} (sep : string) (items : list JSValue) : string :=
  match items with
  | [] => ""
  | [v] => elementText v
  | v :: rest => elementText v ++ sep ++ join sep rest
  end.

(** ** Constants of the engine *)

Definition NAME : string := "EXT_property_animation".

(** The [Animation.ANIMATIONTYPE_*] tags. The class is the engine's
    and not part of the extension; the values are the engine's, and
    the development only uses that they differ. *)
Definition ANIMATIONTYPE_FLOAT : Z := 0.
Definition ANIMATIONTYPE_VECTOR3 : Z := 1.
Definition ANIMATIONTYPE_QUATERNION : Z := 2.
Definition ANIMATIONTYPE_MATRIX : Z := 3.
Definition ANIMATIONTYPE_COLOR3 : Z := 4.
Definition ANIMATIONTYPE_VECTOR2 : Z := 5.
Definition ANIMATIONTYPE_SIZE : Z := 6.
Definition ANIMATIONTYPE_COLOR4 : Z := 7.

(** ** The registry *)

Definition pathProperties : JSValue :=
  JSObj [
    ("extensions", JSObj [
      ("KHR_lights", JSObj [
        ("lights", JSObj [
          ("_isIndexed", JSBool true);
          ("_getTarget", JSFun LightsGetTarget);
          ("color", JSObj [
            ("_typedKeyframeTrack", JSNum ANIMATIONTYPE_COLOR3);
            ("_targetPath", JSStr "diffuse")]);
          ("intensity", JSObj [
            ("_typedKeyframeTrack", JSNum ANIMATIONTYPE_FLOAT);
            ("_targetPath", JSStr "intensity")])])])]);
    ("materials", JSObj [
      ("_isIndexed", JSBool true);
      ("_getTarget", JSFun MaterialsGetTarget);
      ("pbrMetallicRoughness", JSObj [
        ("baseColorFactor", JSObj [
          ("_animationType", JSNum ANIMATIONTYPE_COLOR4);
          ("_targetPath", JSStr "albedoColor")]);
        ("metallicFactor", JSObj [
          ("_animationType", JSNum ANIMATIONTYPE_FLOAT);
          ("_targetPath", JSStr "metallic")]);
        ("roughnessFactor", JSObj [
          ("_animationType", JSNum ANIMATIONTYPE_FLOAT);
          ("_targetPath", JSStr "roughness")]);
        ("baseColorTexture", JSObj [
          ("extensions", JSObj [
            ("KHR_texture_transform", JSObj [
              ("offset", JSObj [
                ("_animationType", JSNum ANIMATIONTYPE_VECTOR2);
                ("_targetPath", JSStr "albedoTexture.uvOffset")]);
              ("scale", JSObj [
                ("_animationType", JSNum ANIMATIONTYPE_VECTOR2);
                ("_targetPath", JSStr "albedoTexture.uvScale")])])])])]);
      ("emissiveFactor", JSObj [
        ("_animationType", JSNum ANIMATIONTYPE_COLOR3);
        ("_targetPath", JSStr "emissive")])])].

(** ** _getAnimationObject *)

Record IEXTPropertyAnimationTarget : Type := {
  targetPath : string;
  animationType : JSValue;
  object : JSValue
}.

(** The locals of the walk that change from one segment to the next:
    [result.object], [result.animationType] and [targetPaths]. *)
Record WalkState : Type := {
  ws_object : JSValue;
  ws_animationType : JSValue;
  ws_targetPaths : list JSValue
}.

Definition invalidTargetPath (context target : string) : Error :=
  Thrown (context ++ ": Invalid " ++ NAME ++ " target path (" ++ target ++ ")").

(** The body of the [for] loop at one value of [pathIndex]:
    [pathPart] is [pathParts[pathIndex]] and [next] is
    [pathParts[pathIndex + 1]] ([None] past the end). The boolean of
    the result tells whether [++pathIndex] ran. *)
Definition iteration `{Host} (context target : string)
    (pathPartNode : JSValue) (st : WalkState) (pathPart : string) (next : option string)
  : M (list Call) (JSValue * WalkState * bool) :=
  if String.eqb pathPart "" then ret (pathPartNode, st, false)
  else
    node <- lift (getProperty pathPartNode pathPart) ;;
    if isUndefined node then throw (invalidTargetPath context target)
    else
      isIndexed <- lift (getProperty node "_isIndexed") ;;
      st1 <- (if truthy isIndexed then
                getTarget <- lift (getProperty node "_getTarget") ;;
                if isUndefined getTarget then ret st
                else
                  obj <- callFunction getTarget next ;;
                  if isNullish obj then throw (invalidTargetPath context target)
                  else ret {| ws_object := obj;
                              ws_animationType := ws_animationType st;
                              ws_targetPaths := ws_targetPaths st |}
              else ret st) ;;
      fragment <- lift (getProperty node "_targetPath") ;;
      let st2 :=
        if isUndefined fragment then st1
        else {| ws_object := ws_object st1;
                ws_animationType := ws_animationType st1;
                ws_targetPaths := ws_targetPaths st1 ++ [fragment] |} in
      declared <- lift (getProperty node "_animationType") ;;
      let st3 :=
        if isUndefined declared then st2
        else {| ws_object := ws_object st2;
                ws_animationType := declared;
                ws_targetPaths := ws_targetPaths st2 |} in
      ret (node, st3, truthy isIndexed).

Definition finish `{Host} (st : WalkState) : IEXTPropertyAnimationTarget :=
  {| targetPath := join "." (ws_targetPaths st);
     animationType := ws_animationType st;
     object := ws_object st |}.

(** The [for] loop over [pathParts], from the part at [pathIndex] on. *)
Fixpoint walk `{Host} (context target : string)
    (pathPartNode : JSValue) (st : WalkState) (pathParts : list string) {struct pathParts}
  : M (list Call) IEXTPropertyAnimationTarget :=
  match pathParts with
  | [] => ret (finish st)
  | pathPart :: rest =>
      step <- iteration context target pathPartNode st pathPart (head rest) ;;
      let '(node, st', consumed) := step in
      if consumed : bool then
        match rest with
        | [] => ret (finish st')
        | _ :: rest' => walk context target node st' rest'
        end
      else walk context target node st' rest
  end.

Definition initialWalkState : WalkState :=
  {| ws_object := JSNull; ws_animationType := JSNum 0; ws_targetPaths := [] |}.

Definition getAnimationObject `{Host} (context animationContext target : string)
  : M (list Call) IEXTPropertyAnimationTarget :=
  walk context target pathProperties initialWalkState (split "/" target).

(** ** Decoded sampler data and keyframes *)

(** [AnimationSamplerInterpolation] of the glTF interface: a string
    enumeration with the three members below. *)
Inductive AnimationSamplerInterpolation : Type :=
| LINEAR
| STEP
| CUBICSPLINE.

Definition interpolationName (i : AnimationSamplerInterpolation) : string :=
  match i with
  | LINEAR => "LINEAR"
  | STEP => "STEP"
  | CUBICSPLINE => "CUBICSPLINE"
  end.

(** [AnimationKeyInterpolation] of the engine. *)
Inductive AnimationKeyInterpolation : Type :=
| KEY_NONE
| KEY_STEP.

Section Keyframes.

(** The elements of a [Float32Array]. The code copies them and never
    computes with them. *)
Context {F : Type}.

Record IEXTPropertyAnimationSamplerData : Type := {
  input : list F;
  interpolation : AnimationSamplerInterpolation;
  output : list F
}.

(** What [getNextOutputValue] returns. A component is [None] where the
    read of the array fell outside it ([undefined]). *)
Inductive OutputValue : Type :=
| Number (x : option F)
| Vector2 (x y : option F)
| Vector3 (x y z : option F)
| Quaternion (x y z w : option F)
| Color3 (r g b : option F).

(** Modelled from the spec: the [FromArray] constructors of the
    engine's math classes are not part of the extension; they build
    the value from the contiguous run of floats that starts at
    [offset]. *)
Definition Vector2_FromArray (array : list F) (offset : nat) : OutputValue :=
  Vector2 (array !! offset) (array !! (offset + 1)).

Definition Vector3_FromArray (array : list F) (offset : nat) : OutputValue :=
  Vector3 (array !! offset) (array !! (offset + 1)) (array !! (offset + 2)).

Definition Quaternion_FromArray (array : list F) (offset : nat) : OutputValue :=
  Quaternion (array !! offset) (array !! (offset + 1)) (array !! (offset + 2))
             (array !! (offset + 3)).

Definition Color3_FromArray (array : list F) (offset : nat) : OutputValue :=
  Color3 (array !! offset) (array !! (offset + 1)) (array !! (offset + 2)).

(** [IAnimationKey]; a field that the object literal does not write
    is [None]. *)
Record IAnimationKey : Type := {
  frame : option F;
  value : OutputValue;
  inTangent : option OutputValue;
  outTangent : option OutputValue;
  key_interpolation : option AnimationKeyInterpolation
}.

(** The arrow functions that the code assigns to
    [getNextOutputValue], one per [case] of the first [switch] and the
    one of the alpha track. *)
Inductive NextOutputValue : Type :=
| NextVector2
| NextVector3
| NextQuaternion
| NextColor3
| NextColor4
| NextFloat
| NextAlpha.

(** The two [let] variables that the arrow functions capture. *)
Record Captured : Type := {
  outputBufferOffset : nat;
  getNextOutputValue : option NextOutputValue
}.

Definition setOffset (offset : nat) : M Captured unit :=
  fun c => (Ok tt, {| outputBufferOffset := offset;
                      getNextOutputValue := getNextOutputValue c |}).

Definition setNextOutputValue (next : option NextOutputValue) : M Captured unit :=
  fun c => (Ok tt, {| outputBufferOffset := outputBufferOffset c;
                      getNextOutputValue := next |}).

(** The body of each arrow function: read at [outputBufferOffset],
    then advance it. *)
Definition runNextOutputValue (data : IEXTPropertyAnimationSamplerData)
    (next : NextOutputValue) : M Captured OutputValue :=
  fun c =>
    let offset := outputBufferOffset c in
    let advance (v : OutputValue) (by_ : nat) :=
      (Ok v, {| outputBufferOffset := offset + by_;
                getNextOutputValue := getNextOutputValue c |}) in
    match next with
    | NextVector2 => advance (Vector2_FromArray (output data) offset) 2
    | NextVector3 => advance (Vector3_FromArray (output data) offset) 3
    | NextQuaternion => advance (Quaternion_FromArray (output data) offset) 4
    | NextColor3 => advance (Color3_FromArray (output data) offset) 3
    | NextColor4 => advance (Color3_FromArray (output data) offset) 4
    | NextFloat => advance (Number (output data !! offset)) 1
    | NextAlpha => advance (Number (output data !! offset)) 4
    end.

(** The call [getNextOutputValue()]: the variable is read when the
    call runs, and calling [undefined] is a [TypeError]. *)
Definition callNextOutputValue (data : IEXTPropertyAnimationSamplerData)
  : M Captured OutputValue :=
  fun c =>
    match getNextOutputValue c with
    | Some next => runNextOutputValue data next c
    | None => (Err TypeError, c)
    end.

(** The first [switch]: which arrow function [target.animationType]
    selects. No [case] matches the other tags. *)
Definition selectNextOutputValue (animationType : Z) : option NextOutputValue :=
  if Z.eqb animationType ANIMATIONTYPE_VECTOR2 then Some NextVector2
  else if Z.eqb animationType ANIMATIONTYPE_VECTOR3 then Some NextVector3
  else if Z.eqb animationType ANIMATIONTYPE_QUATERNION then Some NextQuaternion
  else if Z.eqb animationType ANIMATIONTYPE_COLOR3 then Some NextColor3
  else if Z.eqb animationType ANIMATIONTYPE_COLOR4 then Some NextColor4
  else if Z.eqb animationType ANIMATIONTYPE_FLOAT then Some NextFloat
  else None.

(** The second [switch]: [getNextKey] for [data.interpolation]. The
    properties of the object literal are evaluated in the order they
    are written. *)
Definition getNextKey (data : IEXTPropertyAnimationSamplerData) (frameIndex : nat)
  : M Captured IAnimationKey :=
  match interpolation data with
  | STEP =>
      v <- callNextOutputValue data ;;
      ret {| frame := input data !! frameIndex; value := v;
             inTangent := None; outTangent := None;
             key_interpolation := Some KEY_STEP |}
  | LINEAR =>
      v <- callNextOutputValue data ;;
      ret {| frame := input data !! frameIndex; value := v;
             inTangent := None; outTangent := None;
             key_interpolation := None |}
  | CUBICSPLINE =>
      tin <- callNextOutputValue data ;;
      v <- callNextOutputValue data ;;
      tout <- callNextOutputValue data ;;
      ret {| frame := input data !! frameIndex; value := v;
             inTangent := Some tin; outTangent := Some tout;
             key_interpolation := None |}
  end.

(** [for (let frameIndex = ..; frameIndex < data.input.length; frameIndex++)
    keys[frameIndex] = getNextKey(frameIndex)], with [remaining]
    iterations left. *)
Fixpoint fillKeys (data : IEXTPropertyAnimationSamplerData) (frameIndex remaining : nat)
  : M Captured (list IAnimationKey) :=
  match remaining with
  | O => ret []
  | S remaining' =>
      key <- getNextKey data frameIndex ;;
      keys <- fillKeys data (S frameIndex) remaining' ;;
      ret (key :: keys)
  end.

Definition buildKeys (data : IEXTPropertyAnimationSamplerData)
  : M Captured (list IAnimationKey) :=
  fillKeys data 0 (length (input data)).

(** ** Animations and the animation group *)

(** Modelled from the spec: the engine's [Animation] keeps the
    arguments of its constructor and the keys given to [setKeys]. *)
Record Animation : Type := {
  name : string;
  targetProperty : string;
  framePerSecond : nat;
  dataType : JSValue;
  keys : list IAnimationKey
}.

Record TargetedAnimation : Type := {
  animation : Animation;
  target : JSValue
}.

(** Modelled from the spec: [addTargetedAnimation] is append-only on
    the group's [targetedAnimations]. *)
Record AnimationGroup : Type := {
  group_name : string;
  targetedAnimations : list TargetedAnimation
}.

Definition addTargetedAnimation (a : Animation) (t : JSValue) (g : AnimationGroup)
  : AnimationGroup :=
  {| group_name := group_name g;
     targetedAnimations := targetedAnimations g ++ [{| animation := a; target := t |}] |}.

(** The text of a number in a template literal. *)
Definition decimal (n : nat) : string := NilEmpty.string_of_uint (Nat.to_uint n).

Definition channelName (g : AnimationGroup) : string :=
  group_name g ++ "_" ++ NAME ++ "_channel" ++ decimal (length (targetedAnimations g)).

End Keyframes.

Arguments IEXTPropertyAnimationSamplerData F : clear implicits.
Arguments OutputValue F : clear implicits.
Arguments IAnimationKey F : clear implicits.
Arguments Animation F : clear implicits.
Arguments TargetedAnimation F : clear implicits.
Arguments AnimationGroup F : clear implicits.

(** ** _loadAnimationChannelAsync: the callback on the decoded data *)

Section Channel.

Context `{Host} {F : Type}.

(** The first [switch], on a value: [case] compares with [===]. *)
Definition switchAnimationType (animationType : JSValue) : option NextOutputValue :=
  match animationType with
  | JSNum n => selectNextOutputValue n
  | _ => None
  end.

(** The animations that the callback constructs, attached or not. *)
Record ChannelTracks : Type := {
  babylonAnimation : Animation F;
  alphaBabylonAnimation : option (Animation F)
}.

(** The callback from the point where [target] is known. The store
    is the animation group. *)
Definition assembleChannel (data : IEXTPropertyAnimationSamplerData F)
    (target : IEXTPropertyAnimationTarget) : M (AnimationGroup F) ChannelTracks :=
  fun group =>
    let captured :=
      {| outputBufferOffset := 0;
         getNextOutputValue := switchAnimationType (animationType target) |} in
    match buildKeys data captured with
    | (Err e, _) => (Err e, group)
    | (Ok keys, captured1) =>
        let animationName := channelName group in
        let primary :=
          {| name := animationName; targetProperty := targetPath target;
             framePerSecond := 1; dataType := animationType target; keys := keys |} in
        let group1 :=
          if isNullish (object target) then group
          else addTargetedAnimation primary (object target) group in
        if looselyEquals (animationType target) ANIMATIONTYPE_COLOR4 then
          match (_ <- setOffset 3 ;;
                 _ <- setNextOutputValue (Some NextAlpha) ;;
                 buildKeys data) captured1 with
          | (Err e, _) => (Err e, group1)
          | (Ok alphaKeys, _) =>
              let alphaAnimationName := (channelName group1 ++ "_alpha")%string in
              let alpha :=
                {| name := alphaAnimationName; targetProperty := "alpha";
                   framePerSecond := 1; dataType := JSNum ANIMATIONTYPE_FLOAT;
                   keys := alphaKeys |} in
              let group2 :=
                if isNullish (object target) then group1
                else addTargetedAnimation alpha (object target) group1 in
              (Ok {| babylonAnimation := primary; alphaBabylonAnimation := Some alpha |},
               group2)
          end
        else
          (Ok {| babylonAnimation := primary; alphaBabylonAnimation := None |}, group1)
    end.

(** The whole callback [(data) => { ... }]: resolve the target, then
    build and attach. The store is the log of lookups and the group. *)
Definition channelCallback (context animationContext channelTarget : string)
    (data : IEXTPropertyAnimationSamplerData F)
  : M (list Call * AnimationGroup F) ChannelTracks :=
  fun '(log, group) =>
    match getAnimationObject context animationContext channelTarget log with
    | (Err e, log') => (Err e, (log', group))
    | (Ok target, log') =>
        match assembleChannel data target group with
        | (r, group') => (r, (log', group'))
        end
    end.

End Channel.

Arguments ChannelTracks F : clear implicits.

(** ** _loadAnimationSamplerAsync *)

Record IAccessor : Type := {
  accessor_index : nat
}.

(** The promise that [_loadAnimationSamplerAsync] stores in
    [sampler._data]: [Promise.all] of the two reads, then the callback
    that packs the arrays with [interpolation]. [promise_id] is the
    identity of the promise object. *)
Record SamplerPromise : Type := {
  promise_id : nat;
  awaits_input : IAccessor;
  awaits_output : IAccessor;
  then_interpolation : AnimationSamplerInterpolation
}.

(** The value the promise is fulfilled with once both reads are. *)
Definition fulfilment {F : Type} (p : SamplerPromise) (inputData outputData : list F)
  : IEXTPropertyAnimationSamplerData F :=
  {| input := inputData; interpolation := then_interpolation p; output := outputData |}.

Record IAnimationSampler : Type := {
  sampler_input : nat;
  sampler_interpolation : option string;
  sampler_output : nat;
  _data : option SamplerPromise
}.

(** One call of [_loadFloatAccessorAsync]; [read_for] names the
    sampler the call was made for. *)
Record FloatRead : Type := {
  read_for : nat;
  read_context : string;
  read_accessor : IAccessor
}.

(** The objects [_loadAnimationSamplerAsync] works on: the accessors
    of the asset, the sampler objects (a sampler is referred to by its
    place in [animation_samplers]), the reads issued so far, the number
    of promises created and the promises that have settled. *)
Record LoaderState : Type := {
  gltf_accessors : list IAccessor;
  animation_samplers : list IAnimationSampler;
  floatReads : list FloatRead;
  promiseCount : nat;
  settled : list nat
}.

(** Modelled from the spec: [ArrayItem.Get] is the loader's and not
    part of the extension; it returns the item at [index] and throws
    where there is none. *)
Definition ArrayItem_Get {A : Type} (context : string) (array : list A) (index : nat)
  : Result A :=
  match array !! index with
  | Some item => Ok item
  | None => Err (Raised (context ++ ": Failed to find index (" ++ decimal index ++ ")"))
  end.

(** [sampler.interpolation || AnimationSamplerInterpolation.LINEAR]:
    the left operand unless it is falsy. *)
Definition orLinear (declared : option string) : string :=
  match declared with
  | Some s => if String.eqb s "" then interpolationName LINEAR else s
  | None => interpolationName LINEAR
  end.

(** The [switch] on [interpolation]: the three [case]s, and [None]
    for [default]. *)
Definition switchInterpolation (s : string) : option AnimationSamplerInterpolation :=
  if String.eqb s (interpolationName STEP) then Some STEP
  else if String.eqb s (interpolationName LINEAR) then Some LINEAR
  else if String.eqb s (interpolationName CUBICSPLINE) then Some CUBICSPLINE
  else None.

(** The text of [sampler.interpolation] in a template literal. *)
Definition interpolationText (declared : option string) : string :=
  match declared with
  | Some s => s
  | None => "undefined"
  end.

Definition invalidInterpolation (context : string) (declared : option string) : Error :=
  Thrown (context ++ "/interpolation: Invalid value (" ++ interpolationText declared ++ ")").

(** Modelled from the spec: [_loadFloatAccessorAsync] is the
    loader's; it starts the read of the accessor and returns a promise
    of the floats. *)
Definition loadFloatAccessorAsync (for_ : nat) (context : string) (accessor : IAccessor)
  : M LoaderState unit :=
  fun st =>
    (Ok tt,
     {| gltf_accessors := gltf_accessors st;
        animation_samplers := animation_samplers st;
        floatReads := floatReads st ++
          [{| read_for := for_; read_context := context; read_accessor := accessor |}];
        promiseCount := promiseCount st;
        settled := settled st |}).

(** [sampler._data = promise], for the sampler at [i]. *)
Definition storeData (i : nat) (sampler : IAnimationSampler) (p : SamplerPromise)
  : M LoaderState unit :=
  fun st =>
    (Ok tt,
     {| gltf_accessors := gltf_accessors st;
        animation_samplers :=
          <[i := {| sampler_input := sampler_input sampler;
                    sampler_interpolation := sampler_interpolation sampler;
                    sampler_output := sampler_output sampler;
                    _data := Some p |}]> (animation_samplers st);
        floatReads := floatReads st;
        promiseCount := S (promiseCount st);
        settled := settled st |}).

Definition getState {Store : Type} : M Store Store := fun s => (Ok s, s).

(** [_loadAnimationSamplerAsync(context, sampler)], for the sampler
    object at [i]. *)
Definition loadAnimationSamplerAsync (context : string) (i : nat)
  : M LoaderState SamplerPromise :=
  st <- getState ;;
  match animation_samplers st !! i with
  | None => throw TypeError
  | Some sampler =>
      match _data sampler with
      | Some cached => ret cached
      | None =>
          match switchInterpolation (orLinear (sampler_interpolation sampler)) with
          | None => throw (invalidInterpolation context (sampler_interpolation sampler))
          | Some interpolation =>
              inputAccessor <- lift (ArrayItem_Get (context ++ "/input")
                                       (gltf_accessors st) (sampler_input sampler)) ;;
              outputAccessor <- lift (ArrayItem_Get (context ++ "/output")
                                        (gltf_accessors st) (sampler_output sampler)) ;;
              _ <- loadFloatAccessorAsync i
                     ("/accessors/" ++ decimal (accessor_index inputAccessor)) inputAccessor ;;
              _ <- loadFloatAccessorAsync i
                     ("/accessors/" ++ decimal (accessor_index outputAccessor)) outputAccessor ;;
              let promise :=
                {| promise_id := promiseCount st;
                   awaits_input := inputAccessor;
                   awaits_output := outputAccessor;
                   then_interpolation := interpolation |} in
              _ <- storeData i sampler promise ;;
              ret promise
          end
      end
  end.

(** What happens around a sampler while an animation loads: a channel
    asks for its decoded data, or a promise settles. *)
Inductive Event : Type :=
| Decode (context : string) (sampler : nat)
| Settle (promise : nat).

Definition settle (promise : nat) (st : LoaderState) : LoaderState :=
  {| gltf_accessors := gltf_accessors st;
     animation_samplers := animation_samplers st;
     floatReads := floatReads st;
     promiseCount := promiseCount st;
     settled := promise :: settled st |}.

(** The run of a sequence of events: the final state and, for each
    [Decode], the sampler and what the call returned. *)
Fixpoint run (events : list Event) (st : LoaderState)
  : list (nat * Result SamplerPromise) * LoaderState :=
  match events with
  | [] => ([], st)
  | Decode context i :: rest =>
      let '(r, st1) := loadAnimationSamplerAsync context i st in
      let '(answers, st2) := run rest st1 in
      ((i, r) :: answers, st2)
  | Settle promise :: rest => run rest (settle promise st)
  end.

Definition readsFor (i : nat) (st : LoaderState) : list FloatRead :=
  filter (fun r => read_for r = i) (floatReads st).

Record IEXTPropertyAnimationChannel : Type := {
  channel_index : nat;
  channel_sampler : nat;
  channel_target : string
}.

(** The part of [_loadAnimationChannelAsync] that runs before the
    callback: find the sampler, ask for its data. *)
Definition loadAnimationChannelAsync (context animationContext : string)
    (channel : IEXTPropertyAnimationChannel) : M LoaderState SamplerPromise :=
  st <- getState ;;
  _ <- lift (ArrayItem_Get (context ++ "/sampler") (animation_samplers st)
               (channel_sampler channel)) ;;
  loadAnimationSamplerAsync
    (animationContext ++ "/samplers/" ++ decimal (channel_sampler channel))
    (channel_sampler channel).

(** ** The vocabulary of the specification *)

(** The value types of the Value Composer. *)
Inductive ValueType : Type :=
| VFloat
| VVector2
| VVector3
| VQuaternion
| VColor3
| VColor4.

Definition tagOf (t : ValueType) : Z :=
  match t with
  | VFloat => ANIMATIONTYPE_FLOAT
  | VVector2 => ANIMATIONTYPE_VECTOR2
  | VVector3 => ANIMATIONTYPE_VECTOR3
  | VQuaternion => ANIMATIONTYPE_QUATERNION
  | VColor3 => ANIMATIONTYPE_COLOR3
  | VColor4 => ANIMATIONTYPE_COLOR4
  end.

Definition componentsPerSample (t : ValueType) : nat :=
  match t with
  | VFloat => 1
  | VVector2 => 2
  | VVector3 => 3
  | VQuaternion => 4
  | VColor3 => 3
  | VColor4 => 4
  end.

Definition samplesPerKeyframe (i : AnimationSamplerInterpolation) : nat :=
  match i with
  | CUBICSPLINE => 3
  | STEP | LINEAR => 1
  end.

(** The typed value of sample [k] of the flat array: the floats from
    [componentsPerSample t * k] on, of which a 4-component color keeps
    the first three. *)
Definition sampleAt {F : Type} (t : ValueType) (array : list F) (k : nat) : OutputValue F :=
  let o := componentsPerSample t * k in
  match t with
  | VFloat => Number (array !! o)
  | VVector2 => Vector2 (array !! o) (array !! (o + 1))
  | VVector3 => Vector3 (array !! o) (array !! (o + 1)) (array !! (o + 2))
  | VQuaternion =>
      Quaternion (array !! o) (array !! (o + 1)) (array !! (o + 2)) (array !! (o + 3))
  | VColor3 | VColor4 => Color3 (array !! o) (array !! (o + 1)) (array !! (o + 2))
  end.

(** The keyframe of timestamp [i] as the specification lays it out:
    one sample for STEP and LINEAR, and in-tangent, value, out-tangent
    for CUBICSPLINE. [sample k] is the typed value of sample [k]. *)
Definition keyframeAt {F : Type} (mode : AnimationSamplerInterpolation)
    (times : list F) (sample : nat -> OutputValue F) (i : nat) : IAnimationKey F :=
  match mode with
  | STEP =>
      {| frame := times !! i; value := sample i; inTangent := None; outTangent := None;
         key_interpolation := Some KEY_STEP |}
  | LINEAR =>
      {| frame := times !! i; value := sample i; inTangent := None; outTangent := None;
         key_interpolation := None |}
  | CUBICSPLINE =>
      {| frame := times !! i; value := sample (3 * i + 1);
         inTangent := Some (sample (3 * i)); outTangent := Some (sample (3 * i + 2));
         key_interpolation := None |}
  end.

(** The registry of the specification: a node holds marker
    properties, which describe the node itself, mixed with ordinary
    keys, each of which names a child. *)
Definition markerProperties : list string :=
  ["_isIndexed"; "_getTarget"; "_targetPath"; "_animationType"].

(** The child of [pathPartNode] that [pathPart] names: what is
    written in the node under that key, when the key is no marker. *)
Definition childNamed (pathPartNode : JSValue) (pathPart : string) : option JSValue :=
  match pathPartNode with
  | JSObj props =>
      if bool_decide (pathPart ∈ markerProperties) then None else ownProperty pathPart props
  | _ => None
  end.

(** The two situations of the Path Resolver in which the walk must
    fail, at [pathPartNode] with [pathPart] the segment at hand and
    [next] the one after it. *)
Section Situations.

Context `{Host}.

(** The segment names no child of the current node. *)
Definition segmentNotFound (pathPartNode : JSValue) (pathPart : string) : Prop :=
  pathPart <> "" /\ childNamed pathPartNode pathPart = None.

(** The test of the walk itself, [pathPartNode === undefined] after
    [pathPartNode = pathPartNode[pathPart]]: the read of the property
    that the segment names gives [undefined]. *)
Definition readsUndefined (pathPartNode : JSValue) (pathPart : string) : Prop :=
  pathPart <> "" /\ getProperty pathPartNode pathPart = Ok JSUndefined.

(** The segment names an indexed node that declares a lookup
    function, and the function returns no object for [next]. *)
Definition indexNotResolvable (pathPartNode : JSValue) (pathPart : string)
    (next : option string) : Prop :=
  pathPart <> "" /\
  exists node isIndexed f obj,
    getProperty pathPartNode pathPart = Ok node /\ isUndefined node = false /\
    getProperty node "_isIndexed" = Ok isIndexed /\ truthy isIndexed = true /\
    getProperty node "_getTarget" = Ok (JSFun f) /\
    invoke f next = Returned obj /\ isNullish obj = true.

(** One of the two situations arises during the walk of [pathParts]
    from [pathPartNode]: at the segment at hand, or after an iteration
    that went through. [missing] says when a segment is not found in
    a node. *)
Inductive walkFault (missing : JSValue -> string -> Prop) (context target : string)
  : JSValue -> WalkState -> list string -> list Call -> Prop :=
| fault_here : forall pathPartNode st pathPart rest log,
    missing pathPartNode pathPart \/
    indexNotResolvable pathPartNode pathPart (head rest) ->
    walkFault missing context target pathPartNode st (pathPart :: rest) log
| fault_later : forall pathPartNode st pathPart rest log node st' consumed log',
    iteration context target pathPartNode st pathPart (head rest) log
      = (Ok (node, st', consumed), log') ->
    walkFault missing context target node st' (if consumed : bool then tail rest else rest) log' ->
    walkFault missing context target pathPartNode st (pathPart :: rest) log.

(** No object written in the file inherits one of the marker
    properties that the walk reads. *)
Definition plainPrototype : Prop :=
  forall props key,
    In key ["_isIndexed"; "_getTarget"; "_targetPath"; "_animationType"] ->
    inherited (JSObj props) key = JSUndefined.

End Situations.

(** ** A scene to run the code on *)

(** A runtime without inherited properties and a scene with one
    material, at index 0, and no light. *)
Definition sceneHost : Host :=
  {| inherited := fun _ _ => JSUndefined;
     invoke := fun f index =>
       match f, index with
       | MaterialsGetTarget, Some "0" => Returned (JSHost 0)
       | MaterialsGetTarget, _ => Throws "/materials: Failed to find index"
       | _, _ => Returned JSUndefined
       end;
     display := fun _ => "";
     coercesTo := fun _ _ => false |}.

(** An asset with two accessors and one sampler that reads them. *)
Definition sceneLoader (declared : option string) : LoaderState :=
  {| gltf_accessors := [{| accessor_index := 0 |}; {| accessor_index := 1 |}];
     animation_samplers :=
       [{| sampler_input := 0; sampler_interpolation := declared;
           sampler_output := 1; _data := None |}];
     floatReads := [];
     promiseCount := 0;
     settled := [] |}.

Definition emptyGroup (F : Type) : AnimationGroup F :=
  {| group_name := "group"; targetedAnimations := [] |}.

Definition colorTarget : IEXTPropertyAnimationTarget :=
  {| targetPath := "albedoColor";
     animationType := JSNum ANIMATIONTYPE_COLOR4;
     object := JSHost 0 |}.

(** Two timestamps and two RGBA samples; the floats are written as
    integers. *)
Definition colorData : IEXTPropertyAnimationSamplerData Z :=
  {| input := [0; 1]%Z;
     interpolation := LINEAR;
     output := [10; 11; 12; 13; 20; 21; 22; 23]%Z |}.

(** The same timestamps and colours, STEP-interpolated. *)
Definition stepData : IEXTPropertyAnimationSamplerData Z :=
  {| input := [0; 1]%Z;
     interpolation := STEP;
     output := [10; 11; 12; 13; 20; 21; 22; 23]%Z |}.

(** ** Auxiliary notions for the proofs *)

(** How far each arrow function moves [outputBufferOffset]. *)
Definition strideOf (next : NextOutputValue) : nat :=
  match next with
  | NextVector2 => 2
  | NextVector3 => 3
  | NextQuaternion => 4
  | NextColor3 => 3
  | NextColor4 => 4
  | NextFloat => 1
  | NextAlpha => 4
  end.

(** What each arrow function returns when the offset is [offset]. *)
Definition readAt {F : Type} (next : NextOutputValue) (array : list F) (offset : nat)
  : OutputValue F :=
  match next with
  | NextVector2 => Vector2_FromArray array offset
  | NextVector3 => Vector3_FromArray array offset
  | NextQuaternion => Quaternion_FromArray array offset
  | NextColor3 | NextColor4 => Color3_FromArray array offset
  | NextFloat | NextAlpha => Number (array !! offset)
  end.

(** The arrow function that the first [switch] selects for a value
    type of the specification. *)
Definition nextFor (t : ValueType) : NextOutputValue :=
  match t with
  | VFloat => NextFloat
  | VVector2 => NextVector2
  | VVector3 => NextVector3
  | VQuaternion => NextQuaternion
  | VColor3 => NextColor3
  | VColor4 => NextColor4
  end.

(** The per-key interpolation field that [getNextKey] writes. *)
Definition keyMark (mode : AnimationSamplerInterpolation) : option AnimationKeyInterpolation :=
  match mode with
  | STEP => Some KEY_STEP
  | LINEAR | CUBICSPLINE => None
  end.

(** The cached promise of a sampler, if any, carries the
    interpolation that the sampler declares. *)
Definition cacheAgrees (sampler : IAnimationSampler) : Prop :=
  forall p, _data sampler = Some p ->
    switchInterpolation (orLinear (sampler_interpolation sampler))
      = Some (then_interpolation p).

(** The two reads that the decode of sampler [i] issues for the
    promise [p]. *)
Definition readsOf (i : nat) (p : SamplerPromise) : list FloatRead :=
  [{| read_for := i;
      read_context := "/accessors/" ++ decimal (accessor_index (awaits_input p));
      read_accessor := awaits_input p |};
   {| read_for := i;
      read_context := "/accessors/" ++ decimal (accessor_index (awaits_output p));
      read_accessor := awaits_output p |}].

(** The state of sampler [i] with respect to its cache, [base] being
    the reads made for it before the run: nothing cached and nothing
    read since, or the promise [p] cached and, since, nothing read or
    the two reads of [p]. *)
Inductive flight (i : nat) (base : list FloatRead) (st : LoaderState)
  : option SamplerPromise -> Prop :=
| flight_none :
    (forall sampler, animation_samplers st !! i = Some sampler -> _data sampler = None) ->
    readsFor i st = base ->
    flight i base st None
| flight_cached : forall sampler p,
    animation_samplers st !! i = Some sampler ->
    _data sampler = Some p ->
    readsFor i st = base \/ readsFor i st = base ++ readsOf i p ->
    flight i base st (Some p).

(** The outcome of one iteration of the walk on a segment that is
    not empty, case by case. *)
Inductive iterationCase `{Host} (context target : string) (pathPartNode : JSValue)
    (pathPart : string) (next : option string) (log : list Call)
  : Result (JSValue * WalkState * bool) * list Call -> Prop :=
| case_null :
    getProperty pathPartNode pathPart = Err TypeError ->
    iterationCase context target pathPartNode pathPart next log (Err TypeError, log)
| case_missing :
    readsUndefined pathPartNode pathPart ->
    iterationCase context target pathPartNode pathPart next log
      (Err (invalidTargetPath context target), log)
| case_unresolved : forall log',
    indexNotResolvable pathPartNode pathPart next ->
    iterationCase context target pathPartNode pathPart next log
      (Err (invalidTargetPath context target), log')
| case_other : forall e log',
    (forall m, e <> Thrown m) ->
    ~ readsUndefined pathPartNode pathPart ->
    ~ indexNotResolvable pathPartNode pathPart next ->
    iterationCase context target pathPartNode pathPart next log (Err e, log')
| case_through : forall r log',
    ~ readsUndefined pathPartNode pathPart ->
    ~ indexNotResolvable pathPartNode pathPart next ->
    iterationCase context target pathPartNode pathPart next log (Ok r, log').

(** ** The loop over the channels, and the lights lookup *)



(** No two samplers hold the same promise, and the promises held
    were counted. *)
Definition promisesApart (st : LoaderState) : Prop :=
  (forall i sampler p,
     animation_samplers st !! i = Some sampler -> _data sampler = Some p ->
     promise_id p < promiseCount st) /\
  (forall i j sampler sampler' p q,
     i <> j ->
     animation_samplers st !! i = Some sampler -> _data sampler = Some p ->
     animation_samplers st !! j = Some sampler' -> _data sampler' = Some q ->
     promise_id p <> promise_id q).

(** A callback of [loadAnimationAsync] waiting for its sampler: the
    context of its channel, the target of its channel and, once the
    sampler's promise is fulfilled, the decoded data. *)
Record ChannelJob (F : Type) : Type := {
  job_context : string;
  job_target : string;
  job_data : IEXTPropertyAnimationSamplerData F
}.
Arguments job_context {F} _.
Arguments job_target {F} _.
Arguments job_data {F} _.

(** The callbacks of the channels of one animation, run one after
    the other in the order in which their promises are fulfilled. A
    callback that throws rejects its own promise and does not keep the
    others from running. *)
Fixpoint runCallbacks `{Host} {F : Type} (animationContext : string)
    (jobs : list (ChannelJob F)) (world : list Call * AnimationGroup F)
  : list (Result (ChannelTracks F)) * (list Call * AnimationGroup F) :=
  match jobs with
  | [] => ([], world)
  | job :: rest =>
      let '(r, world1) :=
        channelCallback (job_context job) animationContext (job_target job)
          (job_data job) world in
      let '(results, world2) := runCallbacks animationContext rest world1 in
      (r :: results, world2)
  end.

(** The animations that stand in [group'] behind those of [group]. *)
Definition attachedSince {F : Type} (group group' : AnimationGroup F)
  : list (TargetedAnimation F) :=
  drop (length (targetedAnimations group)) (targetedAnimations group').

(** [group'] is [group] with animations attached behind, each named
    after its place in the group. *)
Definition grownFrom {F : Type} (group group' : AnimationGroup F) : Prop :=
  group_name group' = group_name group /\
  targetedAnimations group'
    = targetedAnimations group ++ attachedSince group group' /\
  forall k ta, attachedSince group group' !! k = Some ta ->
    exists suffix, (suffix = "" \/ suffix = "_alpha") /\
      name (animation ta)
        = (group_name group ++ "_EXT_property_animation_channel"
             ++ decimal (length (targetedAnimations group) + k) ++ suffix)%string.

(** Modelled from the spec: the scene graph is the loader's and is
    consumed through lookups only. A node of the asset, as far as the
    lights lookup reads it: its [extensions] ([JSUndefined] when it
    has none) and what
    [_babylonTransformNode.getChildren(c => c instanceof Light)]
    returns ([None] when the node has no [_babylonTransformNode]). *)
Record INode : Type := {
  node_extensions : JSValue;
  node_lights : option (list JSValue)
}.

(** [node.extensions && node.extensions.KHR_lights]. *)
Definition declaresLights `{Host} (node : INode) : bool :=
  truthy (node_extensions node) &&
  match getProperty (node_extensions node) "KHR_lights" with
  | Ok declared => truthy declared
  | Err _ => false
  end.

(** [node.extensions.KHR_LIGHTS.light == index]; [sameIndex] is the
    runtime's [==] between the light of the node and the segment. *)
Definition lightIs `{Host} (sameIndex : JSValue -> option string -> bool)
    (node : INode) (index : option string) : Result bool :=
  match getProperty (node_extensions node) "KHR_LIGHTS" with
  | Ok entry =>
      match getProperty entry "light" with
      | Ok light => Ok (sameIndex light index)
      | Err e => Err e
      end
  | Err e => Err e
  end.

(** The [for] loop of the [_getTarget] of [lights]: the first light
    under the first node whose extension names the light of [index],
    and [undefined] when the loop ends. *)
Fixpoint lights_forNodes `{Host} (sameIndex : JSValue -> option string -> bool)
    (nodes : list INode) (index : option string) : Result JSValue :=
  match nodes with
  | [] => Ok JSUndefined
  | node :: rest =>
      if declaresLights node then
        match lightIs sameIndex node index with
        | Err e => Err e
        | Ok true =>
            match node_lights node with
            | None => Err TypeError
            | Some (light :: _) => Ok light
            | Some [] => lights_forNodes sameIndex rest index
            end
        | Ok false => lights_forNodes sameIndex rest index
        end
      else lights_forNodes sameIndex rest index
  end.

(** The [_getTarget] of [lights], on [gltf.nodes]; an asset without
    nodes has [undefined] there, which cannot be iterated. *)
Definition lights_getTarget `{Host} (sameIndex : JSValue -> option string -> bool)
    (nodes : option (list INode)) (index : option string) : Result JSValue :=
  match nodes with
  | Some nodes => lights_forNodes sameIndex nodes index
  | None => Err TypeError
  end.

(** What a call that ends in [r] looks like from the walk. *)
Definition outcomeOf (r : Result JSValue) : Outcome :=
  match r with
  | Ok v => Returned v
  | Err TypeError => Throws "TypeError"
  | Err (Thrown m) | Err (Raised m) => Throws m
  end.

(** An asset in which the extension is spelled [KHR_lights] only. *)
Definition scene_nodes : list INode :=
  [{| node_extensions := JSUndefined; node_lights := Some [] |};
   {| node_extensions := JSObj [("KHR_lights", JSObj [("light", JSNum 0)])];
      node_lights := Some [JSHost 7] |}].

(** Two outcomes of the walk that differ at most in the target text
    of the invalid-path error. *)
Inductive sameButTarget {A : Type} (context t1 t2 : string)
  : Result A * list Call -> Result A * list Call -> Prop :=
| same_ok : forall a log,
    sameButTarget context t1 t2 (Ok a, log) (Ok a, log)
| same_invalid : forall log,
    sameButTarget context t1 t2
      (Err (invalidTargetPath context t1), log) (Err (invalidTargetPath context t2), log)
| same_error : forall e log,
    (forall m, e <> Thrown m) ->
    sameButTarget context t1 t2 (Err e, log) (Err e, log).

Section Arrival.

Context `{Host}.

(** The walk has gone through [pre], segment by segment, every
    indexed node finding its index inside [pre], and stands at the
    head of the loop. *)
Inductive arrives (context target : string)
  : JSValue * WalkState * list Call -> list string ->
    JSValue * WalkState * list Call -> Prop :=
| arrives_here : forall s, arrives context target s [] s
| arrives_plain : forall node st log pathPart pre node1 st1 log1 s,
    iteration context target node st pathPart None log = (Ok (node1, st1, false), log1) ->
    arrives context target (node1, st1, log1) pre s ->
    arrives context target (node, st, log) (pathPart :: pre) s
| arrives_index : forall node st log pathPart index pre node1 st1 log1 s,
    iteration context target node st pathPart (Some index) log
      = (Ok (node1, st1, true), log1) ->
    arrives context target (node1, st1, log1) pre s ->
    arrives context target (node, st, log) (pathPart :: index :: pre) s.

End Arrival.

(** A scene in which the lights lookup finds a light for index 0. *)
Definition lightHost : Host :=
  {| inherited := fun _ _ => JSUndefined;
     invoke := fun f index =>
       match f, index with
       | LightsGetTarget, Some "0" => Returned (JSHost 3)
       | _, _ => Returned JSUndefined
       end;
     display := fun _ => "";
     coercesTo := fun _ _ => false |}.

(** A scene whose lights lookup is the one of the file, on
    [scene_nodes]. *)
Definition nodesHost : Host :=
  {| inherited := fun _ _ => JSUndefined;
     invoke := fun f index =>
       match f with
       | LightsGetTarget =>
           outcomeOf (@lights_getTarget sceneHost (fun _ _ => true) (Some scene_nodes) index)
       | _ => Returned JSUndefined
       end;
     display := fun _ => "";
     coercesTo := fun _ _ => false |}.

Definition matrixTarget : IEXTPropertyAnimationTarget :=
  {| targetPath := "matrix";
     animationType := JSNum ANIMATIONTYPE_MATRIX;
     object := JSHost 0 |}.

(** One timestamp and the three RGBA samples of its cubic-spline
    keyframe. *)
Definition cubicData : IEXTPropertyAnimationSamplerData Z :=
  {| input := [0]%Z;
     interpolation := CUBICSPLINE;
     output := [1; 2; 3; 4; 5; 6; 7; 8; 9; 10; 11; 12]%Z |}.

(** An asset with two samplers on the same two accessors, and two
    channels on the first of them. *)
Definition twoSamplers : LoaderState :=
  {| gltf_accessors := [{| accessor_index := 0 |}; {| accessor_index := 1 |}];
     animation_samplers :=
       [{| sampler_input := 0; sampler_interpolation := None;
           sampler_output := 1; _data := None |};
        {| sampler_input := 0; sampler_interpolation := Some "STEP";
           sampler_output := 1; _data := None |}];
     floatReads := [];
     promiseCount := 0;
     settled := [] |}.


(** * Properties *)

(** ** The path walk *)

Section ResolverFacts.

Context `{Host}.

Lemma iteration_empty context target node st next log :
  iteration context target node st "" next log = (Ok (node, st, false), log).
Proof. reflexivity. Qed.

Lemma walk_skips_empty context target node st rest log :
  walk context target node st ("" :: rest) log = walk context target node st rest log.
Proof. reflexivity. Qed.

Lemma walk_cons context target node st pathPart rest log :
  walk context target node st (pathPart :: rest) log =
  match iteration context target node st pathPart (head rest) log with
  | (Ok (node', st', consumed), log') =>
      walk context target node' st' (if consumed : bool then tail rest else rest) log'
  | (Err e, log') => (Err e, log')
  end.
Proof.
  cbn [walk]. unfold bind at 1.
  destruct (iteration context target node st pathPart (head rest) log) as [[[[node' st'] consumed]|e] log'];
    [|reflexivity].
  destruct consumed; [|reflexivity].
  destruct rest; reflexivity.
Qed.

Lemma getProperty_error v key e : getProperty v key = Err e -> e = TypeError.
Proof.
  destruct v; simpl; try discriminate; try congruence.
  destruct (ownProperty key props); discriminate.
Qed.

Lemma iteration_cases context target node st pathPart next log :
  pathPart <> "" ->
  iterationCase context target node pathPart next log
    (iteration context target node st pathPart next log).
Proof.
  intros Hne. unfold iteration.
  destruct (String.eqb_spec pathPart "") as [->|_]; [congruence|].
  unfold bind, lift, ret, throw.
  destruct (getProperty node pathPart) as [child|e] eqn:Hchild.
  2:{ apply getProperty_error in Hchild as He. subst e. apply case_null. assumption. }
  destruct (isUndefined child) eqn:Hundef.
  { destruct child; try discriminate. apply case_missing. split; assumption. }
  assert (Hfound : ~ readsUndefined node pathPart).
  { intros [_ Hm]. rewrite Hchild in Hm. inversion Hm; subst. discriminate. }
  destruct (getProperty child "_isIndexed") as [isIndexed|e] eqn:Hidx.
  2:{ apply getProperty_error in Hidx as He. subst e.
      apply case_other; [discriminate|assumption|].
      intros (_ & cn & ci & cf & co & Hn & _ & Hi & _). congruence. }
  destruct (truthy isIndexed) eqn:Htruthy.
  2:{ assert (Hres : ~ indexNotResolvable node pathPart next).
      { intros (_ & cn & ci & cf & co & Hn & _ & Hi & Ht & _). congruence. }
      destruct (getProperty child "_targetPath") as [fragment|e] eqn:Hfrag.
      2:{ apply getProperty_error in Hfrag as He. subst e.
          apply case_other; [discriminate|assumption|assumption]. }
      destruct (getProperty child "_animationType") as [declared|e] eqn:Hdecl.
      2:{ apply getProperty_error in Hdecl as He. subst e.
          apply case_other; [discriminate|assumption|assumption]. }
      apply case_through; assumption. }
  destruct (getProperty child "_getTarget") as [getTarget|e] eqn:Hget.
  2:{ apply getProperty_error in Hget as He. subst e.
      apply case_other; [discriminate|assumption|].
      intros (_ & cn & ci & cf & co & Hn & _ & _ & _ & Hg & _). congruence. }
  destruct (isUndefined getTarget) eqn:Hdeclared.
  { assert (Hres : ~ indexNotResolvable node pathPart next).
    { intros (_ & cn & ci & cf & co & Hn & _ & _ & _ & Hg & _).
      rewrite Hchild in Hn. inversion Hn; subst cn. rewrite Hget in Hg.
      inversion Hg; subst getTarget. discriminate. }
    destruct (getProperty child "_targetPath") as [fragment|e] eqn:Hfrag.
    2:{ apply getProperty_error in Hfrag as He. subst e.
        apply case_other; [discriminate|assumption|assumption]. }
    destruct (getProperty child "_animationType") as [declared|e] eqn:Hdecl.
    2:{ apply getProperty_error in Hdecl as He. subst e.
        apply case_other; [discriminate|assumption|assumption]. }
    apply case_through; assumption. }
  unfold callFunction.
  destruct getTarget as [| | | | |f| |]; try discriminate;
    try (apply case_other; [discriminate|assumption|];
         intros (_ & cn & ci & cf & co & Hn & _ & _ & _ & Hg & _);
         rewrite Hchild in Hn; inversion Hn; subst cn; rewrite Hget in Hg; discriminate).
  destruct (invoke f next) as [obj|m] eqn:Hinvoke.
  2:{ apply case_other; [discriminate|assumption|].
      intros (_ & cn & ci & cf & co & Hn & _ & _ & _ & Hg & Hinv & _).
      rewrite Hchild in Hn. inversion Hn; subst cn. rewrite Hget in Hg.
      inversion Hg; subst cf. congruence. }
  destruct (isNullish obj) eqn:Hnull.
  { apply case_unresolved. split; [assumption|].
    exists child, isIndexed, f, obj. repeat split; assumption. }
  assert (Hres : ~ indexNotResolvable node pathPart next).
  { intros (_ & cn & ci & cf & co & Hn & _ & _ & _ & Hg & Hinv & Ho).
    rewrite Hchild in Hn. inversion Hn; subst cn. rewrite Hget in Hg.
    inversion Hg; subst cf. rewrite Hinvoke in Hinv. inversion Hinv; subst co. congruence. }
  destruct (getProperty child "_targetPath") as [fragment|e] eqn:Hfrag.
  2:{ apply getProperty_error in Hfrag as He. subst e.
      apply case_other; [discriminate|assumption|assumption]. }
  destruct (getProperty child "_animationType") as [declared|e] eqn:Hdecl.
  2:{ apply getProperty_error in Hdecl as He. subst e.
      apply case_other; [discriminate|assumption|assumption]. }
  apply case_through; assumption.
Qed.

Lemma invalidTargetPath_thrown context target : exists m, invalidTargetPath context target = Thrown m.
Proof. eexists. reflexivity. Qed.

Lemma walkFault_cons context target node st pathPart rest log :
  walkFault readsUndefined context target node st (pathPart :: rest) log ->
  (readsUndefined node pathPart \/ indexNotResolvable node pathPart (head rest)) \/
  exists node' st' consumed log',
    iteration context target node st pathPart (head rest) log
      = (Ok (node', st', consumed), log') /\
    walkFault readsUndefined context target node' st' (if consumed : bool then tail rest else rest) log'.
Proof.
  intros Hf. inversion Hf; subst; [left; assumption|right]. eauto 8.
Qed.

Lemma tail_shorter (rest : list string) (consumed : bool) :
  length (if consumed then tail rest else rest) <= length rest.
Proof. destruct consumed, rest; simpl; lia. Qed.

(** Along the walk, an error thrown by the file is the invalid-path
    error, and it is the outcome exactly when one of the two
    situations arises. *)
Lemma walk_fault_iff context target pathParts :
  forall node st log,
    (forall m, (walk context target node st pathParts log).1 = Err (Thrown m) ->
               Thrown m = invalidTargetPath context target) /\
    ((walk context target node st pathParts log).1 = Err (invalidTargetPath context target) <->
     walkFault readsUndefined context target node st pathParts log).
Proof.
  induction pathParts as [pathParts IH] using (induction_ltof1 _ (@length string)).
  unfold ltof in IH.
  destruct pathParts as [|pathPart rest]; intros node st log.
  { split; [intros m Hm; discriminate|].
    split; [discriminate|]. intros Hf. inversion Hf. }
  destruct (String.eqb_spec pathPart "") as [->|Hne].
  { rewrite walk_skips_empty.
    destruct (IH rest ltac:(simpl; lia) node st log) as [IHa IHb].
    split; [assumption|]. rewrite IHb. split.
    - intros Hf. eapply fault_later; [apply iteration_empty|exact Hf].
    - intros Hf. apply walkFault_cons in Hf.
      destruct Hf as [[[Hc _]|[Hc _]]|(n' & s' & c' & l' & Hit & Hf)]; try congruence.
      rewrite iteration_empty in Hit. inversion Hit; subst. assumption. }
  rewrite walk_cons.
  pose proof (iteration_cases context target node st pathPart (head rest) log Hne) as Hcase.
  inversion Hcase as [Hnull Heq|Hmiss Heq|log' Hres Heq|e log' He Hmiss Hres Heq|r log' Hmiss Hres Heq];
    clear Hcase.
  - split; [intros m Hm; discriminate|]. split; [discriminate|].
    intros Hf. apply walkFault_cons in Hf.
    destruct Hf as [[[_ Hc]|(_ & cn & ci & cf & co & Hn & _)]|(n' & s' & c' & l' & Hit & _)];
      congruence.
  - split; [intros m Hm; simpl in Hm; congruence|].
    split; [intros _|reflexivity]. apply fault_here. left. assumption.
  - split; [intros m Hm; simpl in Hm; congruence|].
    split; [intros _|reflexivity]. apply fault_here. right. assumption.
  - split; [intros m Hm; simpl in Hm; inversion Hm; subst e; destruct (He m); reflexivity|].
    split.
    + intros Hm. simpl in Hm. inversion Hm; subst e.
      destruct (invalidTargetPath_thrown context target) as [m Hth].
      rewrite Hth in He. destruct (He m). reflexivity.
    + intros Hf. apply walkFault_cons in Hf.
      destruct Hf as [[Hc|Hc]|(n' & s' & c' & l' & Hit & _)]; try contradiction.
      congruence.
  - destruct r as [[node' st'] consumed].
    destruct (IH (if consumed then tail rest else rest)
                ltac:(pose proof (tail_shorter rest consumed); simpl; lia) node' st' log')
      as [IHa IHb].
    split; [assumption|]. rewrite IHb. split.
    + intros Hf. eapply fault_later; [symmetry; exact Heq|exact Hf].
    + intros Hf. apply walkFault_cons in Hf.
      destruct Hf as [[Hc|Hc]|(n' & s' & c' & l' & Hit & Hf)]; try contradiction.
      rewrite <- Heq in Hit. inversion Hit; subst. assumption.
Qed.

(** C2: for every target path, an error that the resolution throws
    itself is the invalid-target-path error, whose message names the
    context and the target string; and the resolution ends with that
    error exactly when, during the walk, the read of the property
    that a segment names on the current registry node gives
    [undefined], or an indexed node's declared lookup function
    returns no object for the index segment. The read finds more
    than the children of a node: its marker properties and what it
    inherits are found as well. *)
Theorem invalid_target_path_situations (context animationContext target : string)
    (log : list Call) :
  (forall m, (getAnimationObject context animationContext target log).1 = Err (Thrown m) ->
     m = (context ++ ": Invalid EXT_property_animation target path (" ++ target ++ ")")%string) /\
  ((getAnimationObject context animationContext target log).1
     = Err (Thrown (context ++ ": Invalid EXT_property_animation target path ("
                      ++ target ++ ")")) <->
   walkFault readsUndefined context target pathProperties initialWalkState
     (split "/" target) log).
Proof.
  unfold getAnimationObject.
  destruct (walk_fault_iff context target (split "/" target) pathProperties
              initialWalkState log) as [Ha Hb].
  split; [|exact Hb].
  intros m Hm. apply Ha in Hm. unfold invalidTargetPath in Hm. inversion Hm. reflexivity.
Qed.

Lemma plain_markers :
  plainPrototype ->
  forall props,
    inherited (JSObj props) "_isIndexed" = JSUndefined /\
    inherited (JSObj props) "_getTarget" = JSUndefined /\
    inherited (JSObj props) "_targetPath" = JSUndefined /\
    inherited (JSObj props) "_animationType" = JSUndefined.
Proof. intros Hplain props. repeat split; apply Hplain; simpl; tauto. Qed.

(** Run the walk over a path that is known, reading the marker
    properties that no literal declares as [undefined]. *)
Ltac run_walk Hplain :=
  unfold getAnimationObject; cbn;
  unfold bind, lift, ret, throw, callFunction; cbn;
  repeat (progress
            (repeat match goal with
                    | |- context [inherited (JSObj ?props) ?key] =>
                        first [ rewrite (proj1 (plain_markers Hplain props))
                              | rewrite (proj1 (proj2 (plain_markers Hplain props)))
                              | rewrite (proj1 (proj2 (proj2 (plain_markers Hplain props))))
                              | rewrite (proj2 (proj2 (proj2 (plain_markers Hplain props)))) ]
                    end; cbn)).

(** The walk of the path to the base color of material 0. *)
Lemma walk_baseColorFactor context animationContext obj log :
  plainPrototype ->
  invoke MaterialsGetTarget (Some "0") = Returned obj ->
  isNullish obj = false ->
  getAnimationObject context animationContext
    "materials/0/pbrMetallicRoughness/baseColorFactor" log
  = (Ok {| targetPath := "albedoColor";
           animationType := JSNum ANIMATIONTYPE_COLOR4;
           object := obj |},
     log ++ [(MaterialsGetTarget, Some "0")]).
Proof.
  intros Hplain Hinvoke Hobj.
  run_walk Hplain. rewrite Hinvoke, Hobj.
  run_walk Hplain. reflexivity.
Qed.

(** C7: on a runtime whose objects inherit no marker property and a
    scene where the materials lookup finds an object for index 0, the
    path "materials/0/pbrMetallicRoughness/baseColorFactor" resolves
    to the 4-component color type, the dotted path "albedoColor" and
    that object, and the log of lookups holds exactly one call: the
    materials lookup with the index segment "0". *)
Theorem resolve_baseColorFactor context animationContext obj :
  plainPrototype ->
  invoke MaterialsGetTarget (Some "0") = Returned obj ->
  isNullish obj = false ->
  getAnimationObject context animationContext
    "materials/0/pbrMetallicRoughness/baseColorFactor" []
  = (Ok {| targetPath := "albedoColor";
           animationType := JSNum ANIMATIONTYPE_COLOR4;
           object := obj |},
     [(MaterialsGetTarget, Some "0")]).
Proof.
  intros Hplain Hinvoke Hobj.
  apply (walk_baseColorFactor context animationContext obj [] Hplain Hinvoke Hobj).
Qed.

(** C8: the path with a doubled slash before the index does not
    resolve like the path without it. Where
    "materials/0/pbrMetallicRoughness/baseColorFactor" resolves,
    "materials//0/pbrMetallicRoughness/baseColorFactor" fails: the
    empty segment is taken as the index, so the materials lookup is
    called with the empty string. *)
Theorem doubled_slash_before_index context animationContext obj log :
  plainPrototype ->
  (forall props, inherited (JSObj props) "0" = JSUndefined) ->
  invoke MaterialsGetTarget (Some "0") = Returned obj ->
  isNullish obj = false ->
  (getAnimationObject context animationContext
     "materials/0/pbrMetallicRoughness/baseColorFactor" log).1
    = Ok {| targetPath := "albedoColor";
            animationType := JSNum ANIMATIONTYPE_COLOR4;
            object := obj |} /\
  (exists e, (getAnimationObject context animationContext
                "materials//0/pbrMetallicRoughness/baseColorFactor" log).1 = Err e) /\
  (getAnimationObject context animationContext
     "materials//0/pbrMetallicRoughness/baseColorFactor" log).2
    = log ++ [(MaterialsGetTarget, Some "")].
Proof.
  intros Hplain Hzero Hinvoke Hobj.
  split.
  { rewrite (walk_baseColorFactor context animationContext obj log Hplain Hinvoke Hobj).
    reflexivity. }
  run_walk Hplain.
  destruct (invoke MaterialsGetTarget (Some "")) as [v|m]; [|split; [eexists|]; reflexivity].
  destruct (isNullish v); [split; [eexists|]; reflexivity|].
  run_walk Hplain. rewrite Hzero. cbn.
  split; [eexists|]; reflexivity.
Qed.

End ResolverFacts.

(** ** Keyframe construction *)

Section KeyframeFacts.

Context {F : Type}.
Implicit Types data : IEXTPropertyAnimationSamplerData F.

Lemma runNextOutputValue_reads data next offset current :
  runNextOutputValue data next
    {| outputBufferOffset := offset; getNextOutputValue := current |}
  = (Ok (readAt next (output data) offset),
     {| outputBufferOffset := offset + strideOf next; getNextOutputValue := current |}).
Proof. destruct next; reflexivity. Qed.

Lemma callNextOutputValue_reads data next offset :
  callNextOutputValue data
    {| outputBufferOffset := offset; getNextOutputValue := Some next |}
  = (Ok (readAt next (output data) offset),
     {| outputBufferOffset := offset + strideOf next; getNextOutputValue := Some next |}).
Proof. unfold callNextOutputValue. simpl. apply runNextOutputValue_reads. Qed.

(** One keyframe: read at the place the layout gives it, and move
    on by the samples of one keyframe. *)
Lemma getNextKey_layout data next base frameIndex :
  getNextKey data frameIndex
    {| outputBufferOffset :=
         base + strideOf next * (samplesPerKeyframe (interpolation data) * frameIndex);
       getNextOutputValue := Some next |}
  = (Ok (keyframeAt (interpolation data) (input data)
           (fun k => readAt next (output data) (base + strideOf next * k)) frameIndex),
     {| outputBufferOffset :=
          base + strideOf next * (samplesPerKeyframe (interpolation data) * S frameIndex);
        getNextOutputValue := Some next |}).
Proof.
  unfold getNextKey, keyframeAt.
  destruct (interpolation data); simpl samplesPerKeyframe; unfold bind, ret.
  - replace (1 * frameIndex) with frameIndex by lia.
    rewrite callNextOutputValue_reads.
    replace (base + strideOf next * frameIndex + strideOf next)
      with (base + strideOf next * (1 * S frameIndex)) by lia.
    reflexivity.
  - replace (1 * frameIndex) with frameIndex by lia.
    rewrite callNextOutputValue_reads.
    replace (base + strideOf next * frameIndex + strideOf next)
      with (base + strideOf next * (1 * S frameIndex)) by lia.
    reflexivity.
  - rewrite callNextOutputValue_reads.
    replace (base + strideOf next * (3 * frameIndex) + strideOf next)
      with (base + strideOf next * (3 * frameIndex + 1)) by lia.
    rewrite callNextOutputValue_reads.
    replace (base + strideOf next * (3 * frameIndex + 1) + strideOf next)
      with (base + strideOf next * (3 * frameIndex + 2)) by lia.
    rewrite callNextOutputValue_reads.
    replace (base + strideOf next * (3 * frameIndex + 2) + strideOf next)
      with (base + strideOf next * (3 * S frameIndex)) by lia.
    reflexivity.
Qed.

(** The loop from [frameIndex] on: the keyframes of the layout, and
    the cursor moved by the samples of [remaining] keyframes. *)
Lemma fillKeys_layout data next base remaining :
  forall frameIndex,
    fillKeys data frameIndex remaining
      {| outputBufferOffset :=
           base + strideOf next * (samplesPerKeyframe (interpolation data) * frameIndex);
         getNextOutputValue := Some next |}
    = (Ok (fmap (keyframeAt (interpolation data) (input data)
                  (fun k => readAt next (output data) (base + strideOf next * k)))
               (seq frameIndex remaining)),
       {| outputBufferOffset :=
            base + strideOf next
                   * (samplesPerKeyframe (interpolation data) * (frameIndex + remaining));
          getNextOutputValue := Some next |}).
Proof.
  induction remaining as [|remaining IH]; intros frameIndex.
  - simpl. unfold ret. replace (frameIndex + 0) with frameIndex by lia. reflexivity.
  - cbn [fillKeys seq fmap list_fmap]. unfold bind at 1.
    rewrite getNextKey_layout. unfold bind at 1. rewrite IH.
    unfold ret. replace (S frameIndex + remaining) with (frameIndex + S remaining) by lia.
    reflexivity.
Qed.

Lemma buildKeys_layout data next base :
  buildKeys data {| outputBufferOffset := base; getNextOutputValue := Some next |}
  = (Ok (fmap (keyframeAt (interpolation data) (input data)
                (fun k => readAt next (output data) (base + strideOf next * k)))
             (seq 0 (length (input data)))),
     {| outputBufferOffset :=
          base + strideOf next
                 * (samplesPerKeyframe (interpolation data) * length (input data));
        getNextOutputValue := Some next |}).
Proof.
  unfold buildKeys.
  pose proof (fillKeys_layout data next base (length (input data)) 0) as Hfill.
  replace (base + strideOf next * (samplesPerKeyframe (interpolation data) * 0))
    with base in Hfill by lia.
  exact Hfill.
Qed.


Lemma switchAnimationType_tagOf t :
  switchAnimationType (JSNum (tagOf t)) = Some (nextFor t).
Proof. destruct t; reflexivity. Qed.

Lemma strideOf_nextFor t : strideOf (nextFor t) = componentsPerSample t.
Proof. destruct t; reflexivity. Qed.

Lemma readAt_nextFor t (array : list F) k :
  readAt (nextFor t) array (0 + strideOf (nextFor t) * k) = sampleAt t array k.
Proof. destruct t; reflexivity. Qed.

Lemma keyframeAt_ext mode (times : list F) (f g : nat -> OutputValue F) i :
  (forall k, f k = g k) ->
  keyframeAt mode times f i = keyframeAt mode times g i.
Proof. intros Hfg. unfold keyframeAt. destruct mode; rewrite ?Hfg; reflexivity. Qed.

(** C5: for each of the six value types and each interpolation mode
    the keyframes built are those of the layout, sample [i] for STEP
    and LINEAR and samples [3i], [3i+1], [3i+2] as in-tangent, value,
    out-tangent for CUBICSPLINE, a sample being [componentsPerSample]
    floats; after a full track the cursor stands at
    [componentsPerSample * samplesPerKeyframe * inputLength], and
    after any [j] keyframes at [componentsPerSample *
    samplesPerKeyframe * j]. *)
Theorem cursor_advance (t : ValueType) data :
  let captured :=
    {| outputBufferOffset := 0;
       getNextOutputValue := switchAnimationType (JSNum (tagOf t)) |} in
  (buildKeys data captured).1
    = Ok (fmap (keyframeAt (interpolation data) (input data) (sampleAt t (output data)))
              (seq 0 (length (input data)))) /\
  outputBufferOffset (buildKeys data captured).2
    = componentsPerSample t * samplesPerKeyframe (interpolation data) * length (input data) /\
  forall j,
    outputBufferOffset (fillKeys data 0 j captured).2
      = componentsPerSample t * samplesPerKeyframe (interpolation data) * j.
Proof.
  intros captured. subst captured. rewrite switchAnimationType_tagOf.
  rewrite (buildKeys_layout data (nextFor t) 0). simpl fst. simpl snd.
  rewrite strideOf_nextFor.
  split; [|split].
  - f_equal. apply list_fmap_ext. intros _ i _. apply keyframeAt_ext. intros k.
    rewrite <- strideOf_nextFor. apply readAt_nextFor.
  - simpl. lia.
  - intros j.
    pose proof (fillKeys_layout data (nextFor t) 0 j 0) as Hfill.
    replace (0 + strideOf (nextFor t) * (samplesPerKeyframe (interpolation data) * 0))
      with 0 in Hfill by lia.
    rewrite Hfill. simpl. rewrite strideOf_nextFor. lia.
Qed.

End KeyframeFacts.

Section ChannelFacts.

Context `{Host} {F : Type}.
Implicit Types data : IEXTPropertyAnimationSamplerData F.

(** The second pass: the assignments to the two captured variables,
    then the loop again. *)
Lemma alpha_pass data (captured : Captured) :
  (_ <- setOffset 3 ;; _ <- setNextOutputValue (Some NextAlpha) ;; buildKeys data) captured
  = buildKeys data {| outputBufferOffset := 3; getNextOutputValue := Some NextAlpha |}.
Proof. reflexivity. Qed.

(** C1: for a target of 4-component color type, a STEP or LINEAR
    sampler with [N] timestamps and [4N] output floats yields a track
    of [N] keyframes with the 3-component colors made of the first
    three floats of each sample and an alpha track of [N] keyframes
    with the fourth float of each sample, frame by frame at the same
    timestamps; the alpha track targets "alpha", and both tracks are
    attached to the resolved object when there is one. *)
Theorem color4_two_tracks data (target : IEXTPropertyAnimationTarget)
    (group : AnimationGroup F) :
  animationType target = JSNum ANIMATIONTYPE_COLOR4 ->
  interpolation data <> CUBICSPLINE ->
  length (output data) = 4 * length (input data) ->
  exists primary alpha,
    assembleChannel data target group
      = (Ok {| babylonAnimation := primary; alphaBabylonAnimation := Some alpha |},
         if isNullish (object target) then group
         else addTargetedAnimation alpha (object target)
                (addTargetedAnimation primary (object target) group)) /\
    length (keys primary) = length (input data) /\
    length (keys alpha) = length (input data) /\
    targetProperty alpha = "alpha" /\
    forall i, i < length (input data) ->
      exists time r g b a mark,
        input data !! i = Some time /\
        output data !! (4 * i) = Some r /\
        output data !! (4 * i + 1) = Some g /\
        output data !! (4 * i + 2) = Some b /\
        output data !! (4 * i + 3) = Some a /\
        keys primary !! i
          = Some {| frame := Some time; value := Color3 (Some r) (Some g) (Some b);
                    inTangent := None; outTangent := None; key_interpolation := mark |} /\
        keys alpha !! i
          = Some {| frame := Some time; value := Number (Some a);
                    inTangent := None; outTangent := None; key_interpolation := mark |}.
Proof.
  intros Htype Hmode Hlen.
  unfold assembleChannel. rewrite Htype.
  change (switchAnimationType (JSNum ANIMATIONTYPE_COLOR4)) with (Some NextColor4).
  rewrite (buildKeys_layout data NextColor4 0).
  change (looselyEquals (JSNum ANIMATIONTYPE_COLOR4) ANIMATIONTYPE_COLOR4) with true.
  cbv iota. rewrite alpha_pass, (buildKeys_layout data NextAlpha 3).
  set (primaryKeys := _ <$> seq 0 (length (input data))).
  set (alphaKeys := _ <$> seq 0 (length (input data))).
  assert (Hprimary : length primaryKeys = length (input data)).
  { unfold primaryKeys. rewrite length_fmap, length_seq. reflexivity. }
  assert (Halpha : length alphaKeys = length (input data)).
  { unfold alphaKeys. rewrite length_fmap, length_seq. reflexivity. }
  assert (Hkeys : forall i, i < length (input data) ->
    exists time r g b a mark,
      input data !! i = Some time /\
      output data !! (4 * i) = Some r /\
      output data !! (4 * i + 1) = Some g /\
      output data !! (4 * i + 2) = Some b /\
      output data !! (4 * i + 3) = Some a /\
      primaryKeys !! i
        = Some {| frame := Some time; value := Color3 (Some r) (Some g) (Some b);
                  inTangent := None; outTangent := None; key_interpolation := mark |} /\
      alphaKeys !! i
        = Some {| frame := Some time; value := Number (Some a);
                  inTangent := None; outTangent := None; key_interpolation := mark |}).
  { intros i Hi. unfold primaryKeys, alphaKeys.
    destruct (lookup_lt_is_Some_2 (input data) i Hi) as [time Htime].
    destruct (lookup_lt_is_Some_2 (output data) (4 * i) ltac:(lia)) as [r Hr].
    destruct (lookup_lt_is_Some_2 (output data) (4 * i + 1) ltac:(lia)) as [g Hg].
    destruct (lookup_lt_is_Some_2 (output data) (4 * i + 2) ltac:(lia)) as [b Hb].
    destruct (lookup_lt_is_Some_2 (output data) (4 * i + 3) ltac:(lia)) as [a Ha].
    exists time, r, g, b, a.
    exists (match interpolation data with STEP => Some KEY_STEP | _ => None end).
    rewrite !list_lookup_fmap, !lookup_seq_lt by assumption.
    repeat (split; [assumption|]).
    cbn [fmap option_fmap option_map].
    unfold keyframeAt, readAt, Color3_FromArray. simpl strideOf.
    change (0 + i) with i.
    replace (3 + 4 * i) with (4 * i + 3) by lia.
    change (0 + 4 * i) with (4 * i).
    change (0 + i) with i.
    rewrite Htime, Hr, Hg, Hb, Ha.
    destruct (interpolation data); [split; reflexivity..|congruence]. }
  destruct (isNullish (object target));
    (eexists _, _; split; [reflexivity|]; simpl; auto).
Qed.

Lemma keyframeAt_mark mode (times : list F) (sample : nat -> OutputValue F) i :
  key_interpolation (keyframeAt mode times sample i) = keyMark mode.
Proof. destruct mode; reflexivity. Qed.

Lemma layout_marks mode (times : list F) (sample : nat -> OutputValue F) (indices : list nat) :
  Forall (fun key => key_interpolation key = keyMark mode)
         (keyframeAt mode times sample <$> indices).
Proof. apply Forall_fmap, Forall_forall. intros i _. apply keyframeAt_mark. Qed.

(** C10: a channel whose value type has a composer is assembled
    with one keyframe per timestamp on its track, and on its alpha
    track, which a 4-component colour always gets; every one of these
    keyframes carries the per-key interpolation field [KEY_STEP] when
    the sampler is STEP-interpolated, and no interpolation field at
    all when it is LINEAR or CUBICSPLINE. *)
Theorem step_marker_on_keys data (target : IEXTPropertyAnimationTarget)
    (group : AnimationGroup F) (next : NextOutputValue) :
  switchAnimationType (animationType target) = Some next ->
  exists tracks group',
    assembleChannel data target group = (Ok tracks, group') /\
    length (keys (babylonAnimation tracks)) = length (input data) /\
    Forall (fun key => key_interpolation key
                       = match interpolation data with
                         | STEP => Some KEY_STEP
                         | LINEAR | CUBICSPLINE => None
                         end)
           (keys (babylonAnimation tracks)) /\
    (looselyEquals (animationType target) ANIMATIONTYPE_COLOR4 = true ->
     exists alpha, alphaBabylonAnimation tracks = Some alpha) /\
    forall alpha, alphaBabylonAnimation tracks = Some alpha ->
      length (keys alpha) = length (input data) /\
      Forall (fun key => key_interpolation key
                         = match interpolation data with
                           | STEP => Some KEY_STEP
                           | LINEAR | CUBICSPLINE => None
                           end)
             (keys alpha).
Proof.
  intros Hnext. unfold assembleChannel. rewrite Hnext.
  rewrite (buildKeys_layout data next 0).
  destruct (looselyEquals (animationType target) ANIMATIONTYPE_COLOR4).
  - rewrite alpha_pass, (buildKeys_layout data NextAlpha 3).
    eexists _, _. split; [reflexivity|]. cbn [babylonAnimation alphaBabylonAnimation keys].
    split; [rewrite length_fmap, length_seq; reflexivity|].
    split; [apply layout_marks|].
    split; [intros _; eexists; reflexivity|].
    intros alpha Halpha. inversion Halpha; subst. cbn [keys].
    split; [rewrite length_fmap, length_seq; reflexivity|apply layout_marks].
  - eexists _, _. split; [reflexivity|]. cbn [babylonAnimation alphaBabylonAnimation keys].
    split; [rewrite length_fmap, length_seq; reflexivity|].
    split; [apply layout_marks|].
    split; discriminate.
Qed.

Lemma append_cons (x : ascii) (a b : string) :
  (String x a ++ b)%string = String x (a ++ b)%string.
Proof. reflexivity. Qed.

Lemma append_assoc (a b c : string) : ((a ++ b) ++ c = a ++ (b ++ c))%string.
Proof.
  induction a as [|x a IH]; [reflexivity|].
  rewrite !append_cons, IH. reflexivity.
Qed.

Lemma append_length (a b : string) :
  String.length (a ++ b) = String.length a + String.length b.
Proof.
  induction a as [|x a IH]; [reflexivity|].
  rewrite append_cons. simpl. rewrite IH. reflexivity.
Qed.

Lemma append_cancel_l (a b c : string) : (a ++ b = a ++ c)%string -> b = c.
Proof.
  induction a as [|x a IH]; intros Heq; [exact Heq|].
  rewrite !append_cons in Heq. inversion Heq. auto.
Qed.

Lemma append_cancel_r (c : string) : forall a b : string, (a ++ c = b ++ c)%string -> a = b.
Proof.
  induction a as [|x a IH]; destruct b as [|y b]; intros Heq.
  - reflexivity.
  - apply (f_equal String.length) in Heq. rewrite !append_length in Heq.
    cbn [String.length] in Heq. lia.
  - apply (f_equal String.length) in Heq. rewrite !append_length in Heq.
    cbn [String.length] in Heq. lia.
  - rewrite !append_cons in Heq. inversion Heq; subst. f_equal. apply IH. assumption.
Qed.

Lemma decimal_inj (n m : nat) : decimal n = decimal m -> n = m.
Proof.
  unfold decimal. intros Heq.
  apply (f_equal NilEmpty.uint_of_string) in Heq.
  rewrite !NilEmpty.usu in Heq. inversion Heq as [Huint].
  apply (f_equal Nat.of_uint) in Huint.
  rewrite !DecimalNat.Unsigned.of_to in Huint. exact Huint.
Qed.

Lemma channelName_text (group : AnimationGroup F) :
  channelName group
  = (group_name group ++ "_EXT_property_animation_channel"
       ++ decimal (length (targetedAnimations group)))%string.
Proof. reflexivity. Qed.

Lemma channelName_attached (a : Animation F) (t : JSValue) (group : AnimationGroup F) :
  (channelName (addTargetedAnimation a t group) ++ "_alpha")%string
  = (group_name group ++ "_EXT_property_animation_channel"
       ++ decimal (S (length (targetedAnimations group))) ++ "_alpha")%string.
Proof.
  unfold channelName, addTargetedAnimation. cbn [group_name targetedAnimations].
  rewrite length_app. simpl length.
  replace (length (targetedAnimations group) + 1) with (S (length (targetedAnimations group)))
    by lia.
  rewrite !append_assoc. reflexivity.
Qed.

(** C6: for a 4-component-color channel whose target object is
    resolved, the track is named after the group, the extension tag
    and the count of the group's targeted animations, and the alpha
    track is named with the count read again after the track was
    attached, one higher; its name is not the track's name followed by
    [_alpha]. *)
Theorem alpha_name_counter data (target : IEXTPropertyAnimationTarget)
    (group : AnimationGroup F) :
  animationType target = JSNum ANIMATIONTYPE_COLOR4 ->
  isNullish (object target) = false ->
  exists primary alpha group',
    assembleChannel data target group
      = (Ok {| babylonAnimation := primary; alphaBabylonAnimation := Some alpha |}, group') /\
    name primary
      = (group_name group ++ "_EXT_property_animation_channel"
           ++ decimal (length (targetedAnimations group)))%string /\
    name alpha
      = (group_name group ++ "_EXT_property_animation_channel"
           ++ decimal (S (length (targetedAnimations group))) ++ "_alpha")%string /\
    name alpha <> (name primary ++ "_alpha")%string.
Proof.
  intros Htype Hobject. unfold assembleChannel. rewrite Htype, Hobject.
  change (switchAnimationType (JSNum ANIMATIONTYPE_COLOR4)) with (Some NextColor4).
  rewrite (buildKeys_layout data NextColor4 0).
  change (looselyEquals (JSNum ANIMATIONTYPE_COLOR4) ANIMATIONTYPE_COLOR4) with true.
  cbv iota. rewrite alpha_pass, (buildKeys_layout data NextAlpha 3).
  eexists _, _, _. split; [reflexivity|]. cbn [name].
  rewrite channelName_attached, channelName_text.
  split; [reflexivity|]. split; [reflexivity|].
  intros Heq. rewrite !append_assoc in Heq.
  do 2 apply append_cancel_l in Heq.
  apply append_cancel_r in Heq. apply decimal_inj in Heq. lia.
Qed.

(** Where the target object is not resolved nothing is attached in
    between, and the alpha track's name is the track's name followed
    by [_alpha]. *)
Lemma alpha_name_unattached data (target : IEXTPropertyAnimationTarget)
    (group : AnimationGroup F) :
  animationType target = JSNum ANIMATIONTYPE_COLOR4 ->
  isNullish (object target) = true ->
  exists primary alpha,
    assembleChannel data target group
      = (Ok {| babylonAnimation := primary; alphaBabylonAnimation := Some alpha |}, group) /\
    name alpha = (name primary ++ "_alpha")%string.
Proof.
  intros Htype Hobject. unfold assembleChannel. rewrite Htype, Hobject.
  change (switchAnimationType (JSNum ANIMATIONTYPE_COLOR4)) with (Some NextColor4).
  rewrite (buildKeys_layout data NextColor4 0).
  change (looselyEquals (JSNum ANIMATIONTYPE_COLOR4) ANIMATIONTYPE_COLOR4) with true.
  cbv iota. rewrite alpha_pass, (buildKeys_layout data NextAlpha 3).
  eexists _, _. split; reflexivity.
Qed.

End ChannelFacts.

(** ** The sampler cache *)

Section DecoderFacts.

Lemma switchInterpolation_name mode : switchInterpolation (interpolationName mode) = Some mode.
Proof. destruct mode; reflexivity. Qed.

Lemma switchInterpolation_other s :
  s <> "STEP" -> s <> "LINEAR" -> s <> "CUBICSPLINE" -> switchInterpolation s = None.
Proof.
  intros H1 H2 H3. unfold switchInterpolation, interpolationName.
  destruct (String.eqb_spec s "STEP"); [contradiction|].
  destruct (String.eqb_spec s "LINEAR"); [contradiction|].
  destruct (String.eqb_spec s "CUBICSPLINE"); [contradiction|].
  reflexivity.
Qed.

Lemma decode_cached context i st sampler p :
  animation_samplers st !! i = Some sampler ->
  _data sampler = Some p ->
  loadAnimationSamplerAsync context i st = (Ok p, st).
Proof.
  intros Hs Hp. unfold loadAnimationSamplerAsync, bind, getState.
  rewrite Hs, Hp. reflexivity.
Qed.

(** What a decode that is not answered from the cache does. *)
Lemma decode_fresh context i st sampler :
  animation_samplers st !! i = Some sampler ->
  _data sampler = None ->
  loadAnimationSamplerAsync context i st =
  match switchInterpolation (orLinear (sampler_interpolation sampler)) with
  | None => (Err (invalidInterpolation context (sampler_interpolation sampler)), st)
  | Some mode =>
      match ArrayItem_Get (context ++ "/input") (gltf_accessors st) (sampler_input sampler) with
      | Err e => (Err e, st)
      | Ok inputAccessor =>
          match ArrayItem_Get (context ++ "/output") (gltf_accessors st)
                  (sampler_output sampler) with
          | Err e => (Err e, st)
          | Ok outputAccessor =>
              let p := {| promise_id := promiseCount st;
                          awaits_input := inputAccessor;
                          awaits_output := outputAccessor;
                          then_interpolation := mode |} in
              (Ok p,
               {| gltf_accessors := gltf_accessors st;
                  animation_samplers :=
                    <[i := {| sampler_input := sampler_input sampler;
                              sampler_interpolation := sampler_interpolation sampler;
                              sampler_output := sampler_output sampler;
                              _data := Some p |}]> (animation_samplers st);
                  floatReads := floatReads st ++ readsOf i p;
                  promiseCount := S (promiseCount st);
                  settled := settled st |})
          end
      end
  end.
Proof.
  intros Hs Hp. unfold loadAnimationSamplerAsync, bind, getState.
  rewrite Hs, Hp.
  destruct (switchInterpolation _); [|reflexivity].
  unfold lift.
  destruct (ArrayItem_Get _ _ (sampler_input sampler)); [|reflexivity].
  destruct (ArrayItem_Get _ _ (sampler_output sampler)); [|reflexivity].
  cbn. rewrite <- app_assoc. reflexivity.
Qed.


Lemma ArrayItem_Get_found {A : Type} context (array : list A) index item :
  array !! index = Some item -> ArrayItem_Get context array index = Ok item.
Proof. intros Hitem. unfold ArrayItem_Get. rewrite Hitem. reflexivity. Qed.

(** C3: for a sampler whose cache, if any, agrees with its
    declaration: an absent or empty interpolation field counts as
    LINEAR; when the field, so read, is one of STEP, LINEAR and
    CUBICSPLINE and the two accessors exist, the decode returns a
    promise carrying that mode; any other field that is not empty
    makes the decode throw the error that names its context and the
    value, and leaves the loader state, the reads with it, as it was;
    for a channel on the sampler that context is the sampler's path
    under the animation. *)
Theorem sampler_interpolation_checked (context : string) (i : nat) (st : LoaderState)
    (sampler : IAnimationSampler) :
  animation_samplers st !! i = Some sampler ->
  cacheAgrees sampler ->
  ((sampler_interpolation sampler = None \/ sampler_interpolation sampler = Some "") ->
   orLinear (sampler_interpolation sampler) = interpolationName LINEAR) /\
  (forall mode inputAccessor outputAccessor,
     orLinear (sampler_interpolation sampler) = interpolationName mode ->
     gltf_accessors st !! sampler_input sampler = Some inputAccessor ->
     gltf_accessors st !! sampler_output sampler = Some outputAccessor ->
     exists p st',
       loadAnimationSamplerAsync context i st = (Ok p, st') /\
       then_interpolation p = mode) /\
  (forall s,
     sampler_interpolation sampler = Some s ->
     s <> "" -> s <> "STEP" -> s <> "LINEAR" -> s <> "CUBICSPLINE" ->
     loadAnimationSamplerAsync context i st
       = (Err (Thrown (context ++ "/interpolation: Invalid value (" ++ s ++ ")")), st) /\
     forall channelContext animationContext channel,
       channel_sampler channel = i ->
       loadAnimationChannelAsync channelContext animationContext channel st
         = (Err (Thrown (animationContext ++ "/samplers/" ++ decimal i
                           ++ "/interpolation: Invalid value (" ++ s ++ ")")), st)).
Proof.
  intros Hsampler Hcache. split; [|split].
  - intros [Habsent|Hempty]; [rewrite Habsent|rewrite Hempty]; reflexivity.
  - intros mode inputAccessor outputAccessor Hmode Hin Hout.
    destruct (_data sampler) as [cached|] eqn:Hdata.
    + exists cached, st. split; [eapply decode_cached; eassumption|].
      specialize (Hcache cached Hdata).
      rewrite Hmode, switchInterpolation_name in Hcache. congruence.
    + rewrite (decode_fresh context i st sampler Hsampler Hdata).
      rewrite Hmode, switchInterpolation_name.
      rewrite (ArrayItem_Get_found _ _ _ _ Hin), (ArrayItem_Get_found _ _ _ _ Hout).
      eexists _, _. split; reflexivity.
  - intros s Hdeclared Hempty Hstep Hlinear Hcubic.
    assert (Hor : orLinear (sampler_interpolation sampler) = s).
    { rewrite Hdeclared. unfold orLinear.
      destruct (String.eqb_spec s ""); [contradiction|reflexivity]. }
    assert (Hswitch : switchInterpolation (orLinear (sampler_interpolation sampler)) = None).
    { rewrite Hor. apply switchInterpolation_other; assumption. }
    destruct (_data sampler) as [cached|] eqn:Hdata.
    { specialize (Hcache cached Hdata). congruence. }
    split.
    + rewrite (decode_fresh context i st sampler Hsampler Hdata), Hswitch.
      unfold invalidInterpolation. rewrite Hdeclared. reflexivity.
    + intros channelContext animationContext channel Hchannel.
      unfold loadAnimationChannelAsync, bind, getState, lift.
      rewrite Hchannel, (ArrayItem_Get_found _ _ _ _ Hsampler).
      rewrite (decode_fresh _ i st sampler Hsampler Hdata), Hswitch.
      unfold invalidInterpolation. rewrite Hdeclared, !append_assoc. reflexivity.
Qed.

(** A decode leaves every sampler in agreement with its cache. *)
Lemma decode_keeps_agreement context i st r st' :
  Forall cacheAgrees (animation_samplers st) ->
  loadAnimationSamplerAsync context i st = (r, st') ->
  Forall cacheAgrees (animation_samplers st').
Proof.
  intros Hall Hrun.
  destruct (animation_samplers st !! i) as [sampler|] eqn:Hsampler.
  2:{ unfold loadAnimationSamplerAsync, bind, getState in Hrun. rewrite Hsampler in Hrun.
      inversion Hrun; subst. assumption. }
  destruct (_data sampler) as [cached|] eqn:Hdata.
  { rewrite (decode_cached context i st sampler cached Hsampler Hdata) in Hrun.
    inversion Hrun; subst. assumption. }
  rewrite (decode_fresh context i st sampler Hsampler Hdata) in Hrun.
  destruct (switchInterpolation _) as [mode|] eqn:Hmode;
    [|inversion Hrun; subst; assumption].
  destruct (ArrayItem_Get _ _ (sampler_input sampler)); [|inversion Hrun; subst; assumption].
  destruct (ArrayItem_Get _ _ (sampler_output sampler)); [|inversion Hrun; subst; assumption].
  inversion Hrun; subst. cbn [animation_samplers].
  apply Forall_insert; [assumption|].
  intros p Hp. cbn in Hp. inversion Hp; subst. cbn. assumption.
Qed.

Lemma readsFor_app i st extra :
  filter (fun r => read_for r = i) (floatReads st ++ extra)
  = readsFor i st ++ filter (fun r => read_for r = i) extra.
Proof. unfold readsFor. apply filter_app. Qed.

Lemma readsOf_own i p : filter (fun r => read_for r = i) (readsOf i p) = readsOf i p.
Proof.
  unfold readsOf. rewrite !filter_cons. cbn [read_for].
  destruct (decide (i = i)); [|congruence]. reflexivity.
Qed.

Lemma readsOf_other i j p : i <> j -> filter (fun r => read_for r = i) (readsOf j p) = [].
Proof.
  intros Hne. unfold readsOf. rewrite !filter_cons. cbn [read_for].
  destruct (decide (j = i)); [congruence|]. reflexivity.
Qed.

(** One decode, of any sampler [j], seen from sampler [i]. *)
Lemma decode_flight context i j base st cache r st' :
  flight i base st cache ->
  loadAnimationSamplerAsync context j st = (r, st') ->
  match cache with
  | Some p => flight i base st' (Some p) /\ (j = i -> r = Ok p /\ st' = st)
  | None =>
      (flight i base st' None /\ (j = i -> exists e, r = Err e)) \/
      (exists p, j = i /\ r = Ok p /\ flight i base st' (Some p))
  end.
Proof.
  intros Hflight Hrun.
  assert (Hstay : st' = st -> (j = i -> cache = None -> exists e, r = Err e) ->
            (forall p sampler, j = i -> animation_samplers st !! i = Some sampler ->
                               _data sampler = Some p -> r = Ok p) ->
            match cache with
            | Some p => flight i base st' (Some p) /\ (j = i -> r = Ok p /\ st' = st)
            | None =>
                (flight i base st' None /\ (j = i -> exists e, r = Err e)) \/
                (exists p, j = i /\ r = Ok p /\ flight i base st' (Some p))
            end).
  { intros -> Hfail Hhit.
    destruct Hflight as [Hnone Hreads|s p Hs Hp Hreads].
    - left. split; [constructor; assumption|]. intros Hj. apply Hfail; [assumption|reflexivity].
    - split; [econstructor; eassumption|]. intros Hj. split; [|reflexivity].
      eapply Hhit; eassumption. }
  destruct (animation_samplers st !! j) as [sampler|] eqn:Hsampler.
  2:{ unfold loadAnimationSamplerAsync, bind, getState in Hrun. rewrite Hsampler in Hrun.
      inversion Hrun; subst. apply Hstay; [reflexivity| |].
      - intros _ _. eexists. reflexivity.
      - intros p s ->. congruence. }
  destruct (_data sampler) as [cached|] eqn:Hdata.
  { rewrite (decode_cached context j st sampler cached Hsampler Hdata) in Hrun.
    inversion Hrun; subst. apply Hstay; [reflexivity| |].
    - intros -> ->. inversion Hflight as [Hnone _|]. specialize (Hnone sampler Hsampler).
      congruence.
    - intros p s -> Hs Hp. congruence. }
  rewrite (decode_fresh context j st sampler Hsampler Hdata) in Hrun.
  destruct (switchInterpolation _) as [mode|].
  2:{ inversion Hrun; subst. apply Hstay; [reflexivity| |].
      - intros _ _. eexists. reflexivity.
      - intros p s ->. congruence. }
  destruct (ArrayItem_Get _ _ (sampler_input sampler)) as [inputAccessor|e].
  2:{ inversion Hrun; subst. apply Hstay; [reflexivity| |].
      - intros _ _. eexists. reflexivity.
      - intros p s ->. congruence. }
  destruct (ArrayItem_Get _ _ (sampler_output sampler)) as [outputAccessor|e].
  2:{ inversion Hrun; subst. apply Hstay; [reflexivity| |].
      - intros _ _. eexists. reflexivity.
      - intros p s ->. congruence. }
  clear Hstay. cbv zeta in Hrun. inversion Hrun; subst. clear Hrun.
  set (promise := {| promise_id := promiseCount st; awaits_input := inputAccessor;
                     awaits_output := outputAccessor; then_interpolation := mode |}).
  destruct (decide (j = i)) as [->|Hne].
  - destruct Hflight as [Hnone Hreads|s p Hs Hp Hreads]; [|congruence].
    right. exists promise. split; [reflexivity|]. split; [reflexivity|].
    econstructor.
    + cbn [animation_samplers]. apply list_lookup_insert_eq.
      eapply lookup_lt_Some. eassumption.
    + reflexivity.
    + right. unfold readsFor at 1. cbn [floatReads].
      rewrite readsFor_app, Hreads, readsOf_own. reflexivity.
  - assert (Hkeep : forall x, <[j := x]> (animation_samplers st) !! i = animation_samplers st !! i).
    { intros x. apply list_lookup_insert_ne. assumption. }
    assert (Hreads' : forall st0, floatReads st0 = floatReads st ++ readsOf j promise ->
              readsFor i st0 = readsFor i st).
    { intros st0 Heq. unfold readsFor at 1. rewrite Heq, readsFor_app.
      rewrite readsOf_other by congruence. apply app_nil_r. }
    destruct Hflight as [Hnone Hreads|s p Hs Hp Hreads].
    + left. split; [|congruence]. constructor.
      * intros s0. cbn [animation_samplers]. rewrite Hkeep. apply Hnone.
      * rewrite Hreads' by reflexivity. assumption.
    + split; [|congruence]. econstructor.
      * cbn [animation_samplers]. rewrite Hkeep. eassumption.
      * assumption.
      * rewrite Hreads' by reflexivity. assumption.
Qed.

Lemma settle_flight i base promise st cache :
  flight i base st cache -> flight i base (settle promise st) cache.
Proof.
  intros [Hnone Hreads|s p Hs Hp Hreads]; [constructor|econstructor]; eassumption.
Qed.

(** Every state is the start of a flight. *)
Lemma flight_start i st : exists cache, flight i (readsFor i st) st cache.
Proof.
  destruct (animation_samplers st !! i) as [sampler|] eqn:Hsampler.
  - destruct (_data sampler) as [p|] eqn:Hdata.
    + exists (Some p). econstructor; [eassumption..|]. left. reflexivity.
    + exists None. constructor; [|reflexivity]. intros s Hs. congruence.
  - exists None. constructor; [|reflexivity]. intros s Hs. congruence.
Qed.

(** Over a run, the calls for sampler [i] that return a promise all
    return the one that ends up cached. *)
Lemma run_flight i base events :
  forall st cache answers st',
    flight i base st cache ->
    run events st = (answers, st') ->
    exists cache',
      flight i base st' cache' /\
      (forall p, cache = Some p -> cache' = Some p) /\
      (forall q, (i, Ok q) ∈ answers -> cache' = Some q).
Proof.
  induction events as [|event events IH]; intros st cache answers st' Hflight Hrun.
  - inversion Hrun; subst. exists cache. split; [assumption|]. split; [auto|].
    intros q Hq. inversion Hq.
  - destruct event as [context j|promise]; cbn [run] in Hrun.
    + destruct (loadAnimationSamplerAsync context j st) as [r st1] eqn:Hdecode.
      destruct (run events st1) as [answers1 st2] eqn:Hrest.
      inversion Hrun; subst. clear Hrun.
      pose proof (decode_flight context i j base st cache r st1 Hflight Hdecode) as Hstep.
      destruct cache as [p|].
      * destruct Hstep as [Hflight1 Hanswer].
        destruct (IH st1 (Some p) answers1 st' Hflight1 Hrest) as (cache' & Hf & Hkeep & Hall).
        exists cache'. split; [assumption|]. split; [assumption|].
        intros q Hq. apply elem_of_cons in Hq as [Hq|Hq]; [|auto].
        inversion Hq; subst. destruct (Hanswer eq_refl) as [Hr _].
        inversion Hr; subst. apply Hkeep. reflexivity.
      * destruct Hstep as [[Hflight1 Hanswer]|(p & -> & -> & Hflight1)].
        -- destruct (IH st1 None answers1 st' Hflight1 Hrest) as (cache' & Hf & Hkeep & Hall).
           exists cache'. split; [assumption|]. split; [discriminate|].
           intros q Hq. apply elem_of_cons in Hq as [Hq|Hq]; [|auto].
           inversion Hq; subst. destruct (Hanswer eq_refl) as [e He]. discriminate.
        -- destruct (IH st1 (Some p) answers1 st' Hflight1 Hrest) as (cache' & Hf & Hkeep & Hall).
           exists cache'. split; [assumption|]. split; [discriminate|].
           intros q Hq. apply elem_of_cons in Hq as [Hq|Hq]; [|auto].
           inversion Hq; subst. apply Hkeep. reflexivity.
    + apply settle_flight with (promise := promise) in Hflight.
      apply (IH _ _ _ _ Hflight Hrun).
Qed.

(** C4: for every sampler, a decode that returned a promise is
    answered by the same promise from then on, with the state
    unchanged; and over any run of decodes (of this and of other
    samplers, under any contexts) and settlements of promises, all the
    promises returned for the sampler are one and the same, and the
    reads issued for it during the run are none or the one read of its
    input and the one of its output. *)
Theorem decode_single_flight (i : nat) (st : LoaderState) :
  (forall context p st1,
     loadAnimationSamplerAsync context i st = (Ok p, st1) ->
     forall context', loadAnimationSamplerAsync context' i st1 = (Ok p, st1)) /\
  (forall events answers st',
     run events st = (answers, st') ->
     (forall p q, (i, Ok p) ∈ answers -> (i, Ok q) ∈ answers -> p = q) /\
     (readsFor i st' = readsFor i st \/
      exists p, readsFor i st' = readsFor i st ++ readsOf i p)).
Proof.
  destruct (flight_start i st) as [cache Hflight].
  split.
  - intros context p st1 Hdecode context'.
    pose proof (decode_flight context i i _ st cache (Ok p) st1 Hflight Hdecode) as Hstep.
    destruct cache as [c|].
    + destruct Hstep as [_ Hsame]. destruct (Hsame eq_refl) as [Hp ->].
      rewrite <- Hdecode. inversion Hp; subst c.
      inversion Hflight as [|sampler p' Hs Hd _]; subst.
      rewrite (decode_cached context' i st sampler p Hs Hd).
      rewrite (decode_cached context i st sampler p Hs Hd). reflexivity.
    + destruct Hstep as [[_ Hfail]|(q & _ & Hq & Hcached)].
      * destruct (Hfail eq_refl) as [e He]. discriminate.
      * inversion Hq; subst q. inversion Hcached as [|sampler p' Hs Hp _]; subst.
        eapply decode_cached; eassumption.
  - intros events answers st' Hrun.
    destruct (run_flight i _ events st cache answers st' Hflight Hrun)
      as (cache' & Hf & _ & Hall).
    split.
    + intros p q Hp Hq. apply Hall in Hp. apply Hall in Hq. congruence.
    + inversion Hf as [_ Hr|sampler p _ _ [Hr|Hr]];
        [left|left|right; exists p]; assumption.
Qed.

End DecoderFacts.

(** ** The code on the scene *)

Lemma sceneHost_plain : @plainPrototype sceneHost.
Proof. intros props key _. reflexivity. Qed.

(** C9: the sampler of the scene, declared STEP, is decoded; once
    its reads give the timestamps 0, 1, 2 and the scalars 1, 2, 3, the
    channel on the metallic factor of material 0 gets the three
    keyframes (0, 1), (1, 2), (2, 3) in that order, none of which has
    an in-tangent or an out-tangent; each carries the STEP marker. *)
Theorem step_scalar_keyframes :
  exists p st',
    loadAnimationSamplerAsync "/animations/0/samplers/0" 0 (sceneLoader (Some "STEP"))
      = (Ok p, st') /\
    exists tracks world,
      @channelCallback sceneHost Z
        "/animations/0/extensions/EXT_property_animation/channels/0" "/animations/0"
        "materials/0/pbrMetallicRoughness/metallicFactor"
        (fulfilment p [0; 1; 2]%Z [1; 2; 3]%Z) ([], emptyGroup Z)
        = (Ok tracks, world) /\
      keys (babylonAnimation tracks)
        = [ {| frame := Some 0%Z; value := Number (Some 1%Z);
               inTangent := None; outTangent := None;
               key_interpolation := Some KEY_STEP |};
            {| frame := Some 1%Z; value := Number (Some 2%Z);
               inTangent := None; outTangent := None;
               key_interpolation := Some KEY_STEP |};
            {| frame := Some 2%Z; value := Number (Some 3%Z);
               inTangent := None; outTangent := None;
               key_interpolation := Some KEY_STEP |} ].
Proof.
  eexists _, _. split; [vm_compute; reflexivity|].
  eexists _, _. split; vm_compute; reflexivity.
Qed.

(** The examples of the specification: a segment that the registry
    does not know, and a light index that no light is bound to. *)
Example unknown_segment_rejected :
  (@getAnimationObject sceneHost "/channels/0" "/animations/0" "materials/0/doesNotExist" []).1
  = Err (Thrown "/channels/0: Invalid EXT_property_animation target path (materials/0/doesNotExist)").
Proof. vm_compute. reflexivity. Qed.

Example unbound_light_rejected :
  (@getAnimationObject sceneHost "/channels/0" "/animations/0"
     "extensions/KHR_lights/lights/0/intensity" []).1
  = Err (Thrown ("/channels/0: Invalid EXT_property_animation target path "
                   ++ "(extensions/KHR_lights/lights/0/intensity)")).
Proof. vm_compute. reflexivity. Qed.

(** A segment that names no child of the current node is not always
    rejected. In [materials/0/emissiveFactor/_targetPath] the last
    segment names a marker property of the node that the walk has
    reached, and a marker property is no child: the situation
    "segment not found" arises during the walk, and yet the
    resolution does not end with the invalid-target-path error, it
    returns the descriptor of the emissive factor. *)
Lemma marker_segment_found :
  @walkFault sceneHost segmentNotFound "/channels/0" "materials/0/emissiveFactor/_targetPath"
    pathProperties initialWalkState (split "/" "materials/0/emissiveFactor/_targetPath") [] /\
  (@getAnimationObject sceneHost "/channels/0" "/animations/0"
     "materials/0/emissiveFactor/_targetPath" []).1
  = Ok {| targetPath := "emissive";
          animationType := JSNum ANIMATIONTYPE_COLOR3;
          object := JSHost 0 |} /\
  ~ ((@getAnimationObject sceneHost "/channels/0" "/animations/0"
        "materials/0/emissiveFactor/_targetPath" []).1
     = Err (Thrown ("/channels/0: Invalid EXT_property_animation target path "
                      ++ "(materials/0/emissiveFactor/_targetPath)")) <->
     @walkFault sceneHost segmentNotFound "/channels/0" "materials/0/emissiveFactor/_targetPath"
       pathProperties initialWalkState (split "/" "materials/0/emissiveFactor/_targetPath") []).
Proof.
  assert (Hfault : @walkFault sceneHost segmentNotFound "/channels/0"
            "materials/0/emissiveFactor/_targetPath" pathProperties initialWalkState
            (split "/" "materials/0/emissiveFactor/_targetPath") []).
  { change (split "/" "materials/0/emissiveFactor/_targetPath")
      with ["materials"; "0"; "emissiveFactor"; "_targetPath"].
    eapply fault_later; [vm_compute; reflexivity|]. cbn [tail].
    eapply fault_later; [vm_compute; reflexivity|].
    apply fault_here. left. split; [discriminate|reflexivity]. }
  split; [exact Hfault|]. split; [vm_compute; reflexivity|].
  intros [_ Hback]. apply Hback in Hfault. vm_compute in Hfault. discriminate.
Qed.

Lemma resolve_baseColorFactor_witness :
  @getAnimationObject sceneHost "/channels/0" "/animations/0"
    "materials/0/pbrMetallicRoughness/baseColorFactor" []
  = (Ok {| targetPath := "albedoColor";
           animationType := JSNum ANIMATIONTYPE_COLOR4;
           object := JSHost 0 |},
     [(MaterialsGetTarget, Some "0")]).
Proof.
  apply (@resolve_baseColorFactor sceneHost "/channels/0" "/animations/0" (JSHost 0)).
  - exact sceneHost_plain.
  - reflexivity.
  - reflexivity.
Defined.

Lemma doubled_slash_before_index_witness :
  (@getAnimationObject sceneHost "/channels/0" "/animations/0"
     "materials/0/pbrMetallicRoughness/baseColorFactor" []).1
    = Ok {| targetPath := "albedoColor";
            animationType := JSNum ANIMATIONTYPE_COLOR4;
            object := JSHost 0 |} /\
  (exists e, (@getAnimationObject sceneHost "/channels/0" "/animations/0"
                "materials//0/pbrMetallicRoughness/baseColorFactor" []).1 = Err e) /\
  (@getAnimationObject sceneHost "/channels/0" "/animations/0"
     "materials//0/pbrMetallicRoughness/baseColorFactor" []).2
    = [] ++ [(MaterialsGetTarget, Some "")].
Proof.
  apply (@doubled_slash_before_index sceneHost "/channels/0" "/animations/0" (JSHost 0) []).
  - exact sceneHost_plain.
  - intros props. reflexivity.
  - reflexivity.
  - reflexivity.
Defined.

Lemma color4_two_tracks_witness :
  exists primary alpha,
    @assembleChannel sceneHost Z colorData colorTarget (emptyGroup Z)
      = (Ok {| babylonAnimation := primary; alphaBabylonAnimation := Some alpha |},
         addTargetedAnimation alpha (JSHost 0)
           (addTargetedAnimation primary (JSHost 0) (emptyGroup Z))) /\
    length (keys primary) = 2 /\
    length (keys alpha) = 2 /\
    targetProperty alpha = "alpha".
Proof.
  destruct (@color4_two_tracks sceneHost Z colorData colorTarget (emptyGroup Z))
    as (primary & alpha & Hrun & Hprimary & Halpha & Hproperty & _).
  - reflexivity.
  - discriminate.
  - reflexivity.
  - exists primary, alpha. repeat split; assumption.
Defined.

Lemma step_marker_on_keys_witness :
  (exists tracks group' alpha,
     @assembleChannel sceneHost Z stepData colorTarget (emptyGroup Z) = (Ok tracks, group') /\
     length (keys (babylonAnimation tracks)) = 2 /\
     Forall (fun key => key_interpolation key = Some KEY_STEP) (keys (babylonAnimation tracks)) /\
     alphaBabylonAnimation tracks = Some alpha /\
     length (keys alpha) = 2 /\
     Forall (fun key => key_interpolation key = Some KEY_STEP) (keys alpha)) /\
  (exists tracks group',
     @assembleChannel sceneHost Z colorData colorTarget (emptyGroup Z) = (Ok tracks, group') /\
     length (keys (babylonAnimation tracks)) = 2 /\
     Forall (fun key => key_interpolation key = None) (keys (babylonAnimation tracks))).
Proof.
  split.
  - destruct (@step_marker_on_keys sceneHost Z stepData colorTarget (emptyGroup Z) NextColor4)
      as (tracks & group' & Hrun & Hcount & Hmarks & Hsplit & Halpha).
    + reflexivity.
    + destruct Hsplit as [alpha Hsome]; [reflexivity|].
      destruct (Halpha alpha Hsome) as [Hcount' Hmarks'].
      exists tracks, group', alpha. repeat split; assumption.
  - destruct (@step_marker_on_keys sceneHost Z colorData colorTarget (emptyGroup Z) NextColor4)
      as (tracks & group' & Hrun & Hcount & Hmarks & _).
    + reflexivity.
    + exists tracks, group'. repeat split; assumption.
Defined.

Lemma alpha_name_counter_witness :
  exists primary alpha group',
    @assembleChannel sceneHost Z colorData colorTarget (emptyGroup Z)
      = (Ok {| babylonAnimation := primary; alphaBabylonAnimation := Some alpha |}, group') /\
    name primary = "group_EXT_property_animation_channel0" /\
    name alpha = "group_EXT_property_animation_channel1_alpha" /\
    name alpha <> (name primary ++ "_alpha")%string.
Proof.
  apply (@alpha_name_counter sceneHost Z colorData colorTarget (emptyGroup Z)).
  - reflexivity.
  - reflexivity.
Defined.

(** An empty interpolation field is none of the three names, and the
    decode does not fail on it: it goes on as LINEAR. *)
Lemma empty_interpolation_is_linear :
  "" <> "STEP" /\ "" <> "LINEAR" /\ "" <> "CUBICSPLINE" /\
  exists p st',
    loadAnimationSamplerAsync "/animations/0/samplers/0" 0 (sceneLoader (Some ""))
      = (Ok p, st') /\
    then_interpolation p = LINEAR.
Proof.
  repeat (split; [discriminate|]).
  eexists _, _. split; vm_compute; reflexivity.
Qed.

Lemma sampler_interpolation_checked_witness :
  (exists p st',
     loadAnimationSamplerAsync "/animations/0/samplers/0" 0 (sceneLoader (Some "STEP"))
       = (Ok p, st') /\
     then_interpolation p = STEP).
Proof.
  destruct (sampler_interpolation_checked "/animations/0/samplers/0" 0
              (sceneLoader (Some "STEP"))
              {| sampler_input := 0; sampler_interpolation := Some "STEP";
                 sampler_output := 1; _data := None |})
    as (_ & Hrecognised & _).
  - reflexivity.
  - intros p Hp. discriminate.
  - apply (Hrecognised STEP {| accessor_index := 0 |} {| accessor_index := 1 |});
      reflexivity.
Defined.

(** * More of the code *)

(** Run the walk over segments that are known, where the objects of
    the registry inherit no marker property. *)
Ltac walk_known Hplain :=
  cbn;
  unfold bind, lift, ret, throw, callFunction; cbn;
  repeat (progress
            (repeat match goal with
                    | |- context [inherited (JSObj ?props) ?key] =>
                        first [ rewrite (proj1 (plain_markers Hplain props))
                              | rewrite (proj1 (proj2 (plain_markers Hplain props)))
                              | rewrite (proj1 (proj2 (proj2 (plain_markers Hplain props))))
                              | rewrite (proj2 (proj2 (proj2 (plain_markers Hplain props)))) ]
                    end; cbn)).

(** ** The walk *)

Section WalkMore.

Context `{Host}.

Lemma bind_retarget {A B : Type} context t1 t2
    (m1 m2 : M (list Call) A) (k1 k2 : A -> M (list Call) B) log :
  sameButTarget context t1 t2 (m1 log) (m2 log) ->
  (forall a log', sameButTarget context t1 t2 (k1 a log') (k2 a log')) ->
  sameButTarget context t1 t2 (bind m1 k1 log) (bind m2 k2 log).
Proof.
  intros Hm Hk. unfold bind.
  inversion Hm as [a log' H1 H2|log' H1 H2|e log' He H1 H2];
    [apply Hk|apply same_invalid|apply same_error; assumption].
Qed.

Lemma read_retarget context t1 t2 v key log :
  sameButTarget context t1 t2
    (lift (getProperty v key) log) (lift (getProperty v key) log).
Proof.
  unfold lift. destruct (getProperty v key) as [x|e] eqn:Hread; [apply same_ok|].
  apply getProperty_error in Hread. subst e. apply same_error. discriminate.
Qed.

Lemma call_retarget context t1 t2 fn index log :
  sameButTarget context t1 t2 (callFunction fn index log) (callFunction fn index log).
Proof.
  unfold callFunction. destruct fn; try (apply same_error; discriminate).
  destruct (invoke f index); [apply same_ok|apply same_error; discriminate].
Qed.

Lemma iteration_retarget context t1 t2 node st pathPart next log :
  sameButTarget context t1 t2
    (iteration context t1 node st pathPart next log)
    (iteration context t2 node st pathPart next log).
Proof.
  unfold iteration.
  destruct (String.eqb pathPart ""); [apply same_ok|].
  apply bind_retarget; [apply read_retarget|]. intros child log1.
  destruct (isUndefined child); [apply same_invalid|].
  apply bind_retarget; [apply read_retarget|]. intros isIndexed log2.
  apply bind_retarget.
  - destruct (truthy isIndexed); [|apply same_ok].
    apply bind_retarget; [apply read_retarget|]. intros getTarget log3.
    destruct (isUndefined getTarget); [apply same_ok|].
    apply bind_retarget; [apply call_retarget|]. intros obj log4.
    destruct (isNullish obj); [apply same_invalid|apply same_ok].
  - intros st1 log3.
    apply bind_retarget; [apply read_retarget|]. intros fragment log4.
    apply bind_retarget; [apply read_retarget|]. intros declared log5.
    apply same_ok.
Qed.

Lemma walk_retarget context t1 t2 pathParts :
  forall node st log,
    sameButTarget context t1 t2
      (walk context t1 node st pathParts log) (walk context t2 node st pathParts log).
Proof.
  induction pathParts as [pathParts IH] using (induction_ltof1 _ (@length string)).
  unfold ltof in IH.
  destruct pathParts as [|pathPart rest]; intros node st log; [apply same_ok|].
  rewrite !walk_cons.
  pose proof (iteration_retarget context t1 t2 node st pathPart (head rest) log) as Hstep.
  inversion Hstep as [[[node' st'] consumed] log' H1 H2|log' H1 H2|e log' He H1 H2];
    [|apply same_invalid|apply same_error; assumption].
  apply IH. pose proof (tail_shorter rest consumed). simpl. lia.
Qed.

(** X1: a slash in front of a target path changes nothing but the
    text of the invalid-path error: the lookups made are the same,
    the path resolves to the same descriptor when it resolves, and it
    is rejected as invalid exactly when the path without the slash
    is. *)
Theorem leading_slash_tolerated (context animationContext target : string)
    (log : list Call) :
  (getAnimationObject context animationContext ("/" ++ target) log).2
    = (getAnimationObject context animationContext target log).2 /\
  (forall r,
     (getAnimationObject context animationContext ("/" ++ target) log).1 = Ok r <->
     (getAnimationObject context animationContext target log).1 = Ok r) /\
  ((getAnimationObject context animationContext ("/" ++ target) log).1
     = Err (invalidTargetPath context ("/" ++ target)) <->
   (getAnimationObject context animationContext target log).1
     = Err (invalidTargetPath context target)).
Proof.
  unfold getAnimationObject.
  change ("/" ++ target)%string with (String "/" target).
  change (split "/" (String "/" target)) with ("" :: split "/" target).
  rewrite walk_skips_empty.
  pose proof (walk_retarget context (String "/" target) target (split "/" target)
                pathProperties initialWalkState log) as Hsame.
  inversion Hsame as [a log' H1 H2|log' H1 H2|e log' He H1 H2]; simpl.
  - split; [reflexivity|]. split; [reflexivity|]. split; discriminate.
  - split; [reflexivity|]. split; [split; discriminate|]. split; reflexivity.
  - split; [reflexivity|]. split; [reflexivity|].
    split; intros Heq; inversion Heq; subst e; edestruct He; reflexivity.
Qed.


(** An iteration that does not take the next segment does not look
    at it. *)
Lemma iteration_ignores_next context target node st pathPart next next' log r log' :
  iteration context target node st pathPart next log = (Ok (r, false), log') ->
  iteration context target node st pathPart next' log = (Ok (r, false), log').
Proof.
  unfold iteration.
  destruct (String.eqb pathPart ""); [trivial|].
  unfold bind, lift, ret, throw.
  destruct (getProperty node pathPart) as [child|e]; [|trivial].
  destruct (isUndefined child); [trivial|].
  destruct (getProperty child "_isIndexed") as [isIndexed|e]; [|trivial].
  destruct (truthy isIndexed); [|trivial].
  destruct (getProperty child "_getTarget") as [getTarget|e]; [|discriminate].
  destruct (isUndefined getTarget).
  - destruct (getProperty child "_targetPath"); [|discriminate].
    destruct (getProperty child "_animationType"); discriminate.
  - destruct (callFunction getTarget next log) as [[obj|e] l]; [|discriminate].
    destruct (isNullish obj); [discriminate|].
    destruct (getProperty child "_targetPath"); [|discriminate].
    destruct (getProperty child "_animationType"); discriminate.
Qed.

Lemma walk_app context target pre post s node' st' log' :
  arrives context target s pre (node', st', log') ->
  walk context target s.1.1 s.1.2 (pre ++ post) s.2 = walk context target node' st' post log'.
Proof.
  intros Harrives.
  remember (node', st', log') as s' eqn:Hs'.
  induction Harrives as [s|node st log pathPart pre node1 st1 log1 s Hstep _ IH
                          |node st log pathPart index pre node1 st1 log1 s Hstep _ IH].
  - subst s. reflexivity.
  - specialize (IH Hs'). cbn [fst snd] in *.
    change ((pathPart :: pre) ++ post) with (pathPart :: (pre ++ post)).
    rewrite walk_cons.
    rewrite (iteration_ignores_next _ _ _ _ _ None (head (pre ++ post)) _ _ _ Hstep).
    exact IH.
  - specialize (IH Hs'). cbn [fst snd] in *.
    change ((pathPart :: index :: pre) ++ post) with (pathPart :: index :: (pre ++ post)).
    rewrite walk_cons. cbn [head tail]. rewrite Hstep. exact IH.
Qed.

(** X2: where the walk has gone through the segments [pre], each
    indexed node having found its index among them, an empty segment
    behind [pre] is skipped: the walk ends as it does without it. *)
Theorem empty_segment_at_loop_head (context target : string) (pre post : list string)
    (node : JSValue) (st : WalkState) (log : list Call) (s' : JSValue * WalkState * list Call) :
  arrives context target (node, st, log) pre s' ->
  walk context target node st (pre ++ "" :: post) log
  = walk context target node st (pre ++ post) log.
Proof.
  intros Harrives. destruct s' as [[node' st'] log'].
  pose proof (walk_app context target pre ("" :: post) _ _ _ _ Harrives) as Hskip.
  pose proof (walk_app context target pre post _ _ _ _ Harrives) as Hplain.
  cbn [fst snd] in Hskip, Hplain. rewrite Hskip, Hplain.
  apply walk_skips_empty.
Qed.

(** What one iteration does to [result.object] and to the log. *)
Lemma iteration_object context target node st pathPart next log node' st' consumed log' :
  iteration context target node st pathPart next log = (Ok (node', st', consumed), log') ->
  (log' = log /\ ws_object st' = ws_object st) \/
  (exists f, log' = log ++ [(f, next)] /\
             invoke f next = Returned (ws_object st') /\ isNullish (ws_object st') = false).
Proof.
  unfold iteration.
  destruct (String.eqb pathPart "").
  { intros Heq. inversion Heq; subst. left. split; reflexivity. }
  unfold bind, lift, ret, throw.
  destruct (getProperty node pathPart) as [child|e]; [|discriminate].
  destruct (isUndefined child); [discriminate|].
  destruct (getProperty child "_isIndexed") as [isIndexed|e]; [|discriminate].
  assert (Hkeep : forall st1 l1 : _,
    match getProperty child "_targetPath" with
    | Ok a0 =>
        match getProperty child "_animationType" with
        | Ok a1 =>
            (Ok (child,
                 if isUndefined a1
                 then if isUndefined a0 then st1
                      else {| ws_object := ws_object st1;
                              ws_animationType := ws_animationType st1;
                              ws_targetPaths := ws_targetPaths st1 ++ [a0] |}
                 else {| ws_object := ws_object (if isUndefined a0 then st1
                           else {| ws_object := ws_object st1;
                                   ws_animationType := ws_animationType st1;
                                   ws_targetPaths := ws_targetPaths st1 ++ [a0] |});
                         ws_animationType := a1;
                         ws_targetPaths := ws_targetPaths (if isUndefined a0 then st1
                           else {| ws_object := ws_object st1;
                                   ws_animationType := ws_animationType st1;
                                   ws_targetPaths := ws_targetPaths st1 ++ [a0] |}) |},
                 truthy isIndexed), l1)
        | Err e => (Err e, l1)
        end
    | Err e => (Err e, l1)
    end = (Ok (node', st', consumed), log') ->
    l1 = log' /\ ws_object st' = ws_object st1).
  { intros st1 l1.
    destruct (getProperty child "_targetPath") as [a0|e]; [|discriminate].
    destruct (getProperty child "_animationType") as [a1|e]; [|discriminate].
    intros Heq. inversion Heq; subst.
    destruct (isUndefined a1), (isUndefined a0); split; reflexivity. }
  destruct (truthy isIndexed).
  2:{ intros Heq. apply Hkeep in Heq as [-> ->]. left. split; reflexivity. }
  destruct (getProperty child "_getTarget") as [getTarget|e]; [|discriminate].
  destruct (isUndefined getTarget).
  { intros Heq. apply Hkeep in Heq as [-> ->]. left. split; reflexivity. }
  unfold callFunction.
  destruct getTarget; try discriminate.
  destruct (invoke f next) as [obj|m] eqn:Hinvoke; [|discriminate].
  destruct (isNullish obj) eqn:Hobj; [discriminate|].
  intros Heq. apply Hkeep in Heq as [<- Hst]. cbn in Hst.
  right. exists f. rewrite Hst. repeat split; assumption.
Qed.


Lemma walk_object context target pathParts :
  forall node st log r log',
    walk context target node st pathParts log = (Ok r, log') ->
    (log' = log /\ object r = ws_object st) \/
    (exists calls f index,
       log' = log ++ calls ++ [(f, index)] /\
       invoke f index = Returned (object r) /\ isNullish (object r) = false).
Proof.
  induction pathParts as [pathParts IH] using (induction_ltof1 _ (@length string)).
  unfold ltof in IH.
  destruct pathParts as [|pathPart rest]; intros node st log r log' Hwalk.
  { inversion Hwalk; subst. left. split; reflexivity. }
  rewrite walk_cons in Hwalk.
  destruct (iteration context target node st pathPart (head rest) log)
    as [[[[node1 st1] consumed]|e] log1] eqn:Hstep; [|discriminate].
  apply IH in Hwalk; [|pose proof (tail_shorter rest consumed); simpl; lia].
  destruct (iteration_object _ _ _ _ _ _ _ _ _ _ _ Hstep)
    as [[-> Hsame]|(f & -> & Hinvoke & Hobj)].
  - rewrite <- Hsame. exact Hwalk.
  - right. destruct Hwalk as [[-> Hr]|(calls & g & index & -> & Hg & Hnull)].
    + exists [], f, (head rest). rewrite Hr. repeat split; assumption.
    + exists ((f, head rest) :: calls), g, index.
      split; [|split; assumption]. rewrite <- !app_assoc. reflexivity.
Qed.

(** X3: a path that resolves made no lookup and has the object
    [null], or its object is what the last lookup of the walk
    returned, and that is neither [null] nor [undefined]; the log of
    lookups only grows. *)
Theorem resolved_object_from_last_lookup (context animationContext target : string)
    (log log' : list Call) (r : IEXTPropertyAnimationTarget) :
  getAnimationObject context animationContext target log = (Ok r, log') ->
  (log' = log /\ object r = JSNull) \/
  (exists calls f index,
     log' = log ++ calls ++ [(f, index)] /\
     invoke f index = Returned (object r) /\ isNullish (object r) = false).
Proof. apply walk_object. Qed.

Lemma walk_empty_segments context target node st log pathParts :
  Forall (fun part => part = "") pathParts ->
  walk context target node st pathParts log = (Ok (finish st), log).
Proof.
  induction 1 as [|part pathParts -> _ IH]; [reflexivity|].
  rewrite walk_skips_empty. exact IH.
Qed.

(** X4: a target with no segment but empty ones, the empty target
    among them, resolves without a lookup to the empty dotted path,
    the animation type 0 and the object [null]; the callback of its
    channel attaches nothing to the group. *)
Theorem empty_path_is_unresolved (context animationContext target : string) :
  Forall (fun part => part = "") (split "/" target) ->
  (forall log,
     getAnimationObject context animationContext target log
     = (Ok {| targetPath := ""; animationType := JSNum 0; object := JSNull |}, log)) /\
  (forall (F : Type) (data : IEXTPropertyAnimationSamplerData F) log group,
     (channelCallback context animationContext target data (log, group)).2 = (log, group)).
Proof.
  intros Hempty.
  assert (Hresolve : forall log,
            getAnimationObject context animationContext target log
            = (Ok {| targetPath := ""; animationType := JSNum 0; object := JSNull |}, log)).
  { intros log. unfold getAnimationObject.
    rewrite (walk_empty_segments _ _ _ _ _ _ Hempty). reflexivity. }
  split; [exact Hresolve|].
  intros F data log group. unfold channelCallback. rewrite Hresolve.
  unfold assembleChannel. cbn [object isNullish animationType].
  destruct (buildKeys data _) as [[primaryKeys|e] c1]; [|reflexivity].
  change (looselyEquals (JSNum 0) ANIMATIONTYPE_COLOR4) with false. reflexivity.
Qed.

(** The walk to a property of a light: the leaves under [lights]
    declare [_typedKeyframeTrack], which the walk does not read. *)
Lemma walk_light context target index leaf fragment obj log :
  plainPrototype ->
  invoke LightsGetTarget (Some index) = Returned obj ->
  isNullish obj = false ->
  (leaf = "color" /\ fragment = "diffuse") \/
  (leaf = "intensity" /\ fragment = "intensity") ->
  walk context target pathProperties initialWalkState
    ["extensions"; "KHR_lights"; "lights"; index; leaf] log
  = (Ok {| targetPath := fragment; animationType := JSNum 0; object := obj |},
     log ++ [(LightsGetTarget, Some index)]).
Proof.
  intros Hplain Hinvoke Hobj [(-> & ->)|(-> & ->)];
    walk_known Hplain; rewrite Hinvoke, Hobj; walk_known Hplain; reflexivity.
Qed.


End WalkMore.

(** ** Channels *)

Section ChannelMore.

Context `{Host} {F : Type}.
Implicit Types data : IEXTPropertyAnimationSamplerData F.

Lemma fillKeys_without_composer data remaining :
  forall frameIndex offset,
    fillKeys data frameIndex (S remaining)
      {| outputBufferOffset := offset; getNextOutputValue := None |}
    = (Err TypeError, {| outputBufferOffset := offset; getNextOutputValue := None |}).
Proof.
  intros frameIndex offset. cbn [fillKeys]. unfold bind at 1.
  assert (Hkey : getNextKey data frameIndex
                   {| outputBufferOffset := offset; getNextOutputValue := None |}
                 = (Err TypeError, {| outputBufferOffset := offset; getNextOutputValue := None |})).
  { unfold getNextKey. destruct (interpolation data); reflexivity. }
  rewrite Hkey. reflexivity.
Qed.

(** X6: for an animation type that none of the six [case]s names,
    the channel cannot be assembled as soon as there is one
    timestamp: the call of the undefined [getNextOutputValue] is a
    TypeError, and the group is left as it was. With no timestamp the
    tracks are built, without keys. *)
Theorem composer_missing (data : IEXTPropertyAnimationSamplerData F)
    (target : IEXTPropertyAnimationTarget) (group : AnimationGroup F) :
  switchAnimationType (animationType target) = None ->
  (input data <> [] -> assembleChannel data target group = (Err TypeError, group)) /\
  (input data = [] ->
   exists tracks group',
     assembleChannel data target group = (Ok tracks, group') /\
     keys (babylonAnimation tracks) = [] /\
     forall alpha, alphaBabylonAnimation tracks = Some alpha -> keys alpha = []).
Proof.
  intros Hswitch. unfold assembleChannel. rewrite Hswitch. unfold buildKeys. split.
  - intros Hinput. destruct (input data) as [|time times]; [congruence|].
    cbn [length]. rewrite fillKeys_without_composer. reflexivity.
  - intros Hinput. rewrite Hinput. cbn [length fillKeys]. unfold ret.
    destruct (looselyEquals (animationType target) ANIMATIONTYPE_COLOR4).
    + eexists _, _. split; [reflexivity|]. split; [reflexivity|].
      intros alpha Halpha. inversion Halpha. reflexivity.
    + eexists _, _. split; [reflexivity|]. split; [reflexivity|]. discriminate.
Qed.

(** X7: for a 4-component-color target and a CUBICSPLINE sampler,
    keyframe [i] takes twelve floats from [12i] on: the track has the
    colors of floats 0-2 as in-tangent, 4-6 as value and 8-10 as
    out-tangent, the alpha track has floats 3, 7 and 11. A float
    beyond the end of the output is [undefined]; nothing fails. *)
Theorem color4_cubic_spline (data : IEXTPropertyAnimationSamplerData F)
    (target : IEXTPropertyAnimationTarget) (group : AnimationGroup F) :
  animationType target = JSNum ANIMATIONTYPE_COLOR4 ->
  interpolation data = CUBICSPLINE ->
  exists primary alpha group',
    assembleChannel data target group
      = (Ok {| babylonAnimation := primary; alphaBabylonAnimation := Some alpha |}, group') /\
    length (keys primary) = length (input data) /\
    length (keys alpha) = length (input data) /\
    forall i, i < length (input data) ->
      keys primary !! i
        = Some {| frame := input data !! i;
                  value := Color3 (output data !! (12 * i + 4)) (output data !! (12 * i + 5))
                                  (output data !! (12 * i + 6));
                  inTangent := Some (Color3 (output data !! (12 * i))
                                            (output data !! (12 * i + 1))
                                            (output data !! (12 * i + 2)));
                  outTangent := Some (Color3 (output data !! (12 * i + 8))
                                             (output data !! (12 * i + 9))
                                             (output data !! (12 * i + 10)));
                  key_interpolation := None |} /\
      keys alpha !! i
        = Some {| frame := input data !! i;
                  value := Number (output data !! (12 * i + 7));
                  inTangent := Some (Number (output data !! (12 * i + 3)));
                  outTangent := Some (Number (output data !! (12 * i + 11)));
                  key_interpolation := None |}.
Proof.
  intros Htype Hmode.
  unfold assembleChannel. rewrite Htype.
  change (switchAnimationType (JSNum ANIMATIONTYPE_COLOR4)) with (Some NextColor4).
  rewrite (buildKeys_layout data NextColor4 0).
  change (looselyEquals (JSNum ANIMATIONTYPE_COLOR4) ANIMATIONTYPE_COLOR4) with true.
  cbv iota. rewrite alpha_pass, (buildKeys_layout data NextAlpha 3).
  rewrite Hmode.
  eexists _, _, _. split; [reflexivity|]. cbn [keys].
  rewrite !length_fmap, !length_seq. split; [reflexivity|]. split; [reflexivity|].
  intros i Hi.
  rewrite !list_lookup_fmap, !lookup_seq_lt by assumption.
  cbn [fmap option_fmap option_map].
  unfold keyframeAt, readAt, Color3_FromArray. simpl strideOf. change (0 + i) with i.
  replace (0 + 4 * (3 * i)) with (12 * i) by lia.
  replace (0 + 4 * (3 * i + 1)) with (12 * i + 4) by lia.
  replace (0 + 4 * (3 * i + 2)) with (12 * i + 8) by lia.
  replace (3 + 4 * (3 * i)) with (12 * i + 3) by lia.
  replace (3 + 4 * (3 * i + 1)) with (12 * i + 7) by lia.
  replace (3 + 4 * (3 * i + 2)) with (12 * i + 11) by lia.
  replace (12 * i + 4 + 1) with (12 * i + 5) by lia.
  replace (12 * i + 4 + 2) with (12 * i + 6) by lia.
  replace (12 * i + 8 + 1) with (12 * i + 9) by lia.
  replace (12 * i + 8 + 2) with (12 * i + 10) by lia.
  split; reflexivity.
Qed.


Lemma append_empty_r (a : string) : (a ++ "")%string = a.
Proof.
  induction a as [|x a IH]; [reflexivity|]. rewrite append_cons, IH. reflexivity.
Qed.

Lemma no_number_before_alpha (a : string) :
  NilEmpty.uint_of_string (a ++ "_alpha") = None.
Proof.
  induction a as [|x a IH]; [reflexivity|].
  rewrite append_cons. cbn [NilEmpty.uint_of_string]. rewrite IH. reflexivity.
Qed.

(** The counter of a track name can be read back, with or without
    the alpha marker behind it. *)
Lemma counter_inj (n m : nat) (s s' : string) :
  s = "" \/ s = "_alpha" -> s' = "" \/ s' = "_alpha" ->
  (decimal n ++ s = decimal m ++ s')%string -> n = m.
Proof.
  intros [->| ->] [->| ->] Heq.
  - apply append_cancel_r in Heq. apply decimal_inj. assumption.
  - rewrite append_empty_r in Heq.
    apply (f_equal NilEmpty.uint_of_string) in Heq.
    unfold decimal in Heq at 1. rewrite NilEmpty.usu, no_number_before_alpha in Heq.
    discriminate.
  - rewrite append_empty_r in Heq.
    apply (f_equal NilEmpty.uint_of_string) in Heq.
    unfold decimal in Heq at 2. rewrite NilEmpty.usu, no_number_before_alpha in Heq.
    discriminate.
  - apply append_cancel_r in Heq. apply decimal_inj. assumption.
Qed.

Lemma grownFrom_refl (group : AnimationGroup F) : grownFrom group group.
Proof.
  unfold grownFrom, attachedSince. rewrite drop_all, app_nil_r.
  split; [reflexivity|]. split; [reflexivity|]. intros k ta Hk. discriminate.
Qed.

Lemma grownFrom_trans (g1 g2 g3 : AnimationGroup F) :
  grownFrom g1 g2 -> grownFrom g2 g3 -> grownFrom g1 g3.
Proof.
  intros (Hn12 & Ha12 & Hk12) (Hn23 & Ha23 & Hk23).
  assert (Hsince : attachedSince g1 g3 = attachedSince g1 g2 ++ attachedSince g2 g3).
  { unfold attachedSince at 1. rewrite Ha23, Ha12 at 1.
    rewrite <- app_assoc, drop_app_length. reflexivity. }
  split; [congruence|]. split.
  - rewrite Hsince, app_assoc, <- Ha12. exact Ha23.
  - intros k ta Hk. rewrite Hsince in Hk.
    apply lookup_app_Some in Hk as [Hk|[Hge Hk]].
    + apply Hk12. assumption.
    + destruct (Hk23 _ _ Hk) as (suffix & Hsuffix & Hname).
      exists suffix. split; [assumption|]. rewrite Hname, Hn12.
      assert (Hlen : length (targetedAnimations g2)
                     = length (targetedAnimations g1) + length (attachedSince g1 g2)).
      { rewrite Ha12 at 1. apply length_app. }
      replace (length (targetedAnimations g2) + (k - length (attachedSince g1 g2)))
        with (length (targetedAnimations g1) + k) by lia.
      reflexivity.
Qed.

Lemma grownFrom_attach (a : Animation F) (t : JSValue) (group : AnimationGroup F)
    (suffix : string) :
  suffix = "" \/ suffix = "_alpha" ->
  name a = (channelName group ++ suffix)%string ->
  grownFrom group (addTargetedAnimation a t group).
Proof.
  intros Hsuffix Hname. unfold grownFrom, attachedSince, addTargetedAnimation.
  cbn [group_name targetedAnimations]. rewrite drop_app_length.
  split; [reflexivity|]. split; [reflexivity|].
  intros k ta Hk. destruct k as [|k]; [|destruct k; discriminate].
  inversion Hk; subst ta. cbn [animation]. exists suffix. split; [assumption|].
  rewrite Hname, channelName_text, !append_assoc.
  replace (length (targetedAnimations group) + 0) with (length (targetedAnimations group))
    by lia.
  reflexivity.
Qed.

Lemma assemble_grows data (target : IEXTPropertyAnimationTarget) (group : AnimationGroup F) :
  grownFrom group (assembleChannel data target group).2.
Proof.
  unfold assembleChannel.
  destruct (buildKeys data _) as [[primaryKeys|e] c1]; [|apply grownFrom_refl].
  set (primary := {| name := channelName group; targetProperty := targetPath target;
                     framePerSecond := 1; dataType := animationType target;
                     keys := primaryKeys |}).
  assert (Hfirst : grownFrom group
            (if isNullish (object target) then group
             else addTargetedAnimation primary (object target) group)).
  { destruct (isNullish (object target)); [apply grownFrom_refl|].
    apply grownFrom_attach with (suffix := ""); [left; reflexivity|].
    rewrite append_empty_r. reflexivity. }
  destruct (looselyEquals (animationType target) ANIMATIONTYPE_COLOR4); [|exact Hfirst].
  destruct ((_ <- setOffset 3 ;; _ <- setNextOutputValue (Some NextAlpha) ;; buildKeys data) c1)
    as [[alphaKeys|e] c2]; [|exact Hfirst].
  cbn [snd]. eapply grownFrom_trans; [exact Hfirst|].
  destruct (isNullish (object target)); [apply grownFrom_refl|].
  apply grownFrom_attach with (suffix := "_alpha"); [right; reflexivity|reflexivity].
Qed.

Lemma callback_grows context animationContext channelTarget data
    (log : list Call) (group : AnimationGroup F) :
  grownFrom group
    (channelCallback context animationContext channelTarget data (log, group)).2.2.
Proof.
  unfold channelCallback.
  destruct (getAnimationObject context animationContext channelTarget log)
    as [[target|e] log']; [|apply grownFrom_refl].
  pose proof (assemble_grows data target group) as Hgrows.
  destruct (assembleChannel data target group) as [r group']. exact Hgrows.
Qed.

Lemma callbacks_grow animationContext (jobs : list (ChannelJob F)) :
  forall (log : list Call) (group : AnimationGroup F),
    grownFrom group (runCallbacks animationContext jobs (log, group)).2.2.
Proof.
  induction jobs as [|job jobs IH]; intros log group; [apply grownFrom_refl|].
  cbn [runCallbacks].
  pose proof (callback_grows (job_context job) animationContext (job_target job)
                (job_data job) log group) as Hfirst.
  destruct (channelCallback _ _ _ _ (log, group)) as [r [log1 group1]].
  specialize (IH log1 group1).
  destruct (runCallbacks animationContext jobs (log1, group1)) as [results [log2 group2]].
  cbn [snd] in *. eapply grownFrom_trans; eassumption.
Qed.

(** X9: whatever the order in which the callbacks of the channels
    run, and whether they succeed or throw, the animations attached
    to the group stand behind those it had, each named by its place
    in the group (with or without the alpha marker), so that no two
    of them have the same name. *)
Theorem attached_names_distinct (animationContext : string) (jobs : list (ChannelJob F))
    (log : list Call) (group : AnimationGroup F) :
  let group' := (runCallbacks animationContext jobs (log, group)).2.2 in
  exists added,
    targetedAnimations group' = targetedAnimations group ++ added /\
    NoDup ((fun ta => name (animation ta)) <$> added) /\
    forall k ta, added !! k = Some ta ->
      exists suffix, (suffix = "" \/ suffix = "_alpha") /\
        name (animation ta)
          = (group_name group ++ "_EXT_property_animation_channel"
               ++ decimal (length (targetedAnimations group) + k) ++ suffix)%string.
Proof.
  intros group'.
  destruct (callbacks_grow animationContext jobs log group) as (_ & Happ & Hnames).
  fold group' in Happ, Hnames.
  exists (attachedSince group group'). split; [exact Happ|]. split; [|exact Hnames].
  apply NoDup_alt. intros i j x Hi Hj.
  rewrite list_lookup_fmap in Hi, Hj.
  destruct (attachedSince group group' !! i) as [ti|] eqn:Hti; [|discriminate].
  destruct (attachedSince group group' !! j) as [tj|] eqn:Htj; [|discriminate].
  cbn in Hi, Hj. inversion Hi as [Hni]. inversion Hj as [Hnj].
  destruct (Hnames i ti Hti) as (si & Hsi & Hname_i).
  destruct (Hnames j tj Htj) as (sj & Hsj & Hname_j).
  rewrite <- Hnj, Hname_i, Hname_j in Hni.
  do 2 apply append_cancel_l in Hni.
  apply counter_inj in Hni; [lia|assumption..].
Qed.


(** X8: assembling a channel fails with a TypeError only, and then
    leaves the group as it was; with an unresolved object it leaves
    the group as it was too; otherwise it attaches, behind the
    animations of the group and to the resolved object, the track it
    built, followed by the alpha track when it built one. *)
Theorem assemble_attaches_what_it_builds (data : IEXTPropertyAnimationSamplerData F)
    (target : IEXTPropertyAnimationTarget) (group : AnimationGroup F) :
  let out := assembleChannel data target group in
  (forall e, out.1 = Err e -> e = TypeError /\ out.2 = group) /\
  (isNullish (object target) = true -> out.2 = group) /\
  (forall tracks, out.1 = Ok tracks -> isNullish (object target) = false ->
     group_name out.2 = group_name group /\
     targetedAnimations out.2
       = targetedAnimations group
           ++ {| animation := babylonAnimation tracks; target := object target |}
           :: match alphaBabylonAnimation tracks with
              | Some alpha => [{| animation := alpha; target := object target |}]
              | None => []
              end).
Proof.
  intros out. subst out. unfold assembleChannel.
  destruct (buildKeys data _) as [[primaryKeys|e] c1] eqn:Hprimary.
  2:{ cbn [fst snd]. split; [|split; [reflexivity|discriminate]].
      intros e' He'. inversion He'; subst e'. split; [|reflexivity].
      destruct (switchAnimationType (animationType target)) as [next|].
      - rewrite (buildKeys_layout data next 0) in Hprimary. discriminate.
      - unfold buildKeys in Hprimary. destruct (length (input data)) as [|n].
        + discriminate.
        + rewrite fillKeys_without_composer in Hprimary. congruence. }
  destruct (looselyEquals (animationType target) ANIMATIONTYPE_COLOR4).
  - rewrite alpha_pass, (buildKeys_layout data NextAlpha 3). cbn [fst snd].
    split; [discriminate|].
    destruct (isNullish (object target)).
    + split; [reflexivity|discriminate].
    + split; [discriminate|]. intros tracks Htracks _. inversion Htracks; subst tracks.
      cbn. rewrite <- app_assoc. split; reflexivity.
  - cbn [fst snd]. split; [discriminate|].
    destruct (isNullish (object target)).
    + split; [reflexivity|discriminate].
    + split; [discriminate|]. intros tracks Htracks _. inversion Htracks; subst tracks.
      cbn. split; reflexivity.
Qed.

(** X5: the color of a light resolves with the animation type 0,
    the initial one, since its registry leaf writes
    [_typedKeyframeTrack] where the walk reads [_animationType]: the
    channel gets one track on "diffuse" whose keyframes are scalars,
    one float each, and no alpha track. *)
Theorem light_color_is_scalar (context animationContext target index : string)
    (obj : JSValue) (data : IEXTPropertyAnimationSamplerData F)
    (log : list Call) (group : AnimationGroup F) :
  plainPrototype ->
  split "/" target = ["extensions"; "KHR_lights"; "lights"; index; "color"] ->
  invoke LightsGetTarget (Some index) = Returned obj ->
  isNullish obj = false ->
  let primary :=
    {| name := channelName group; targetProperty := "diffuse"; framePerSecond := 1;
       dataType := JSNum 0;
       keys := keyframeAt (interpolation data) (input data) (sampleAt VFloat (output data))
                 <$> seq 0 (length (input data)) |} in
  channelCallback context animationContext target data (log, group)
  = (Ok {| babylonAnimation := primary; alphaBabylonAnimation := None |},
     (log ++ [(LightsGetTarget, Some index)], addTargetedAnimation primary obj group)).
Proof.
  intros Hplain Hsplit Hinvoke Hobj primary.
  unfold channelCallback, getAnimationObject. rewrite Hsplit.
  rewrite (walk_light context target index "color" "diffuse" obj log Hplain Hinvoke Hobj)
    by (left; split; reflexivity).
  unfold assembleChannel. cbn [animationType object targetPath].
  change (switchAnimationType (JSNum 0)) with (Some NextFloat).
  rewrite (buildKeys_layout data NextFloat 0).
  change (looselyEquals (JSNum 0) ANIMATIONTYPE_COLOR4) with false. cbv iota.
  rewrite Hobj.
  assert (Hkeys : keyframeAt (interpolation data) (input data)
                    (fun k => readAt NextFloat (output data) (0 + strideOf NextFloat * k))
                    <$> seq 0 (length (input data))
                  = keys primary).
  { apply list_fmap_ext. intros _ i _. apply keyframeAt_ext. intros k.
    apply (readAt_nextFor VFloat). }
  rewrite Hkeys. reflexivity.
Qed.

End ChannelMore.

(** ** Requests *)

Section DecoderMore.

(** A decode changes the state in one case only: nothing was cached,
    and the promise it returns is. *)
Lemma decode_outcomes context i st r st' :
  loadAnimationSamplerAsync context i st = (r, st') ->
  st' = st \/
  exists sampler p,
    r = Ok p /\
    animation_samplers st !! i = Some sampler /\ _data sampler = None /\
    promise_id p = promiseCount st /\
    switchInterpolation (orLinear (sampler_interpolation sampler))
      = Some (then_interpolation p) /\
    gltf_accessors st !! sampler_input sampler = Some (awaits_input p) /\
    gltf_accessors st !! sampler_output sampler = Some (awaits_output p) /\
    st' = {| gltf_accessors := gltf_accessors st;
             animation_samplers :=
               <[i := {| sampler_input := sampler_input sampler;
                         sampler_interpolation := sampler_interpolation sampler;
                         sampler_output := sampler_output sampler;
                         _data := Some p |}]> (animation_samplers st);
             floatReads := floatReads st ++ readsOf i p;
             promiseCount := S (promiseCount st);
             settled := settled st |}.
Proof.
  intros Hrun.
  destruct (animation_samplers st !! i) as [sampler|] eqn:Hsampler.
  2:{ unfold loadAnimationSamplerAsync, bind, getState in Hrun. rewrite Hsampler in Hrun.
      inversion Hrun. left. reflexivity. }
  destruct (_data sampler) as [cached|] eqn:Hdata.
  { rewrite (decode_cached context i st sampler cached Hsampler Hdata) in Hrun.
    inversion Hrun. left. reflexivity. }
  rewrite (decode_fresh context i st sampler Hsampler Hdata) in Hrun.
  destruct (switchInterpolation _) as [mode|] eqn:Hmode;
    [|inversion Hrun; left; reflexivity].
  unfold ArrayItem_Get in Hrun.
  destruct (gltf_accessors st !! sampler_input sampler) as [inputAccessor|] eqn:Hin;
    [|inversion Hrun; left; reflexivity].
  destruct (gltf_accessors st !! sampler_output sampler) as [outputAccessor|] eqn:Hout;
    [|inversion Hrun; left; reflexivity].
  cbv zeta in Hrun. inversion Hrun; subst. right.
  eexists sampler, _. repeat (split; [reflexivity || eassumption|]). reflexivity.
Qed.




Lemma settle_samplers promise st :
  animation_samplers (settle promise st) = animation_samplers st.
Proof. reflexivity. Qed.

(** Over a run, the promise a call for sampler [i] returns is the
    one the sampler holds at the end. *)
Lemma answered_is_cached i events st answers st' q :
  run events st = (answers, st') ->
  (i, Ok q) ∈ answers ->
  exists sampler, animation_samplers st' !! i = Some sampler /\ _data sampler = Some q.
Proof.
  intros Hrun Hq.
  destruct (flight_start i st) as [cache Hflight].
  destruct (run_flight i _ events st cache answers st' Hflight Hrun) as (cache' & Hf & _ & Hall).
  specialize (Hall q Hq). subst cache'.
  inversion Hf as [|sampler p Hs Hd _]; subst. exists sampler. split; assumption.
Qed.

Lemma run_keeps_agreement events :
  forall st answers st',
    Forall cacheAgrees (animation_samplers st) ->
    run events st = (answers, st') ->
    Forall cacheAgrees (animation_samplers st').
Proof.
  induction events as [|event events IH]; intros st answers st' Hall Hrun.
  - inversion Hrun; subst. assumption.
  - destruct event as [context j|promise]; cbn [run] in Hrun.
    + destruct (loadAnimationSamplerAsync context j st) as [r st1] eqn:Hdecode.
      destruct (run events st1) as [answers1 st2] eqn:Hrest.
      inversion Hrun; subst.
      eapply IH; [|eassumption].
      eapply decode_keeps_agreement; eassumption.
    + eapply IH; [|eassumption]. rewrite settle_samplers. assumption.
Qed.

(** X12: if every cached promise carries the interpolation that its
    sampler declares, this remains so after any run of decodes and
    settlements, and every promise returned during the run carries
    the interpolation declared by the sampler it was asked for. *)
Theorem answered_mode_is_declared (events : list Event) (st st' : LoaderState)
    (answers : list (nat * Result SamplerPromise)) :
  Forall cacheAgrees (animation_samplers st) ->
  run events st = (answers, st') ->
  Forall cacheAgrees (animation_samplers st') /\
  forall i p, (i, Ok p) ∈ answers ->
    exists sampler,
      animation_samplers st' !! i = Some sampler /\
      switchInterpolation (orLinear (sampler_interpolation sampler))
        = Some (then_interpolation p).
Proof.
  intros Hall Hrun.
  pose proof (run_keeps_agreement events st answers st' Hall Hrun) as Hall'.
  split; [assumption|].
  intros i p Hp.
  destruct (answered_is_cached i events st answers st' p Hrun Hp) as (sampler & Hs & Hd).
  exists sampler. split; [assumption|].
  rewrite Forall_lookup in Hall'. apply (Hall' i sampler Hs p Hd).
Qed.

Lemma decode_keeps_apart context i st r st' :
  promisesApart st ->
  loadAnimationSamplerAsync context i st = (r, st') ->
  promisesApart st'.
Proof.
  intros [Hbelow Hapart] Hrun.
  apply decode_outcomes in Hrun
    as [->|(sampler & p & _ & Hs & Hd & Hid & _ & _ & _ & ->)]; [split; assumption|].
  assert (Hlt : i < length (animation_samplers st)) by (eapply lookup_lt_Some; eassumption).
  assert (Hheld : forall j s q,
            <[i := {| sampler_input := sampler_input sampler;
                      sampler_interpolation := sampler_interpolation sampler;
                      sampler_output := sampler_output sampler;
                      _data := Some p |}]> (animation_samplers st) !! j = Some s ->
            _data s = Some q ->
            (j = i /\ q = p) \/
            (j <> i /\ exists s0, animation_samplers st !! j = Some s0 /\ _data s0 = Some q)).
  { intros j s q Hj Hq. destruct (decide (j = i)) as [->|Hne].
    - rewrite list_lookup_insert_eq in Hj by assumption. inversion Hj; subst s.
      cbn in Hq. inversion Hq. left. split; reflexivity.
    - rewrite list_lookup_insert_ne in Hj by congruence. right. split; [assumption|].
      exists s. split; assumption. }
  split; cbn [animation_samplers promiseCount].
  - intros j s q Hj Hq.
    destruct (Hheld j s q Hj Hq) as [[_ ->]|(_ & s0 & Hs0 & Hq0)]; [lia|].
    specialize (Hbelow j s0 q Hs0 Hq0). lia.
  - intros j k s s' q q' Hjk Hj Hq Hk Hq'.
    destruct (Hheld j s q Hj Hq) as [[-> ->]|(Hji & s0 & Hs0 & Hq0)];
      destruct (Hheld k s' q' Hk Hq') as [[-> ->]|(Hki & s1 & Hs1 & Hq1)].
    + congruence.
    + specialize (Hbelow k s1 q' Hs1 Hq1). lia.
    + specialize (Hbelow j s0 q Hs0 Hq0). lia.
    + exact (Hapart j k s0 s1 q q' Hjk Hs0 Hq0 Hs1 Hq1).
Qed.

Lemma run_keeps_apart events :
  forall st answers st',
    promisesApart st -> run events st = (answers, st') -> promisesApart st'.
Proof.
  induction events as [|event events IH]; intros st answers st' Hinv Hrun.
  - inversion Hrun; subst. assumption.
  - destruct event as [context j|promise]; cbn [run] in Hrun.
    + destruct (loadAnimationSamplerAsync context j st) as [r st1] eqn:Hdecode.
      destruct (run events st1) as [answers1 st2] eqn:Hrest.
      inversion Hrun; subst.
      eapply IH; [|eassumption]. eapply decode_keeps_apart; eassumption.
    + eapply IH; [|eassumption]. exact Hinv.
Qed.

Lemma nothing_cached_apart st :
  Forall (fun sampler => _data sampler = None) (animation_samplers st) -> promisesApart st.
Proof.
  intros Hnone. rewrite Forall_lookup in Hnone. split.
  - intros i sampler p Hs Hd. rewrite (Hnone i sampler Hs) in Hd. discriminate.
  - intros i j sampler sampler' p q _ Hs Hd. rewrite (Hnone i sampler Hs) in Hd. discriminate.
Qed.

(** X11: starting with nothing cached, two different samplers never
    get the same promise, whatever run of decodes and settlements,
    even when they read the same accessors. *)
Theorem samplers_never_share_a_promise (events : list Event) (st st' : LoaderState)
    (answers : list (nat * Result SamplerPromise)) :
  Forall (fun sampler => _data sampler = None) (animation_samplers st) ->
  run events st = (answers, st') ->
  forall i j p q,
    i <> j -> (i, Ok p) ∈ answers -> (j, Ok q) ∈ answers ->
    promise_id p <> promise_id q.
Proof.
  intros Hnone Hrun i j p q Hij Hp Hq.
  destruct (run_keeps_apart events st answers st' (nothing_cached_apart st Hnone) Hrun)
    as [_ Hapart].
  destruct (answered_is_cached i events st answers st' p Hrun Hp) as (s & Hs & Hd).
  destruct (answered_is_cached j events st answers st' q Hrun Hq) as (s' & Hs' & Hd').
  exact (Hapart i j s s' p q Hij Hs Hd Hs' Hd').
Qed.



End DecoderMore.

(** ** Lights *)

Section LightsFacts.

Context `{Host}.

Lemma lights_loop_outcome (sameIndex : JSValue -> option string -> bool)
    (nodes : list INode) (index : option string) :
  (forall node, node ∈ nodes -> declaresLights node = true ->
     exists entry, getProperty (node_extensions node) "KHR_LIGHTS" = Ok entry /\
                   isNullish entry = true) ->
  lights_forNodes sameIndex nodes index
  = if existsb declaresLights nodes then Err TypeError else Ok JSUndefined.
Proof.
  induction nodes as [|node nodes IH]; intros Hspelled; [reflexivity|].
  cbn [lights_forNodes existsb].
  destruct (declaresLights node) eqn:Hdeclares.
  - destruct (Hspelled node (list_elem_of_here _ _) Hdeclares) as (entry & Hentry & Hnull).
    unfold lightIs. rewrite Hentry.
    destruct entry; try discriminate; reflexivity.
  - cbn [orb]. apply IH. intros n Hn. apply Hspelled. apply list_elem_of_further. assumption.
Qed.

(** X14: on an asset whose nodes spell the extension [KHR_lights]
    and have nothing under [KHR_LIGHTS], the lights lookup returns no
    light for any index: it throws a TypeError as soon as one node
    declares the extension, and returns [undefined] when none does. *)
Theorem lights_lookup_finds_no_light (sameIndex : JSValue -> option string -> bool)
    (nodes : list INode) (index : option string) :
  (forall node, node ∈ nodes -> declaresLights node = true ->
     exists entry, getProperty (node_extensions node) "KHR_LIGHTS" = Ok entry /\
                   isNullish entry = true) ->
  lights_getTarget sameIndex (Some nodes) index
  = if existsb declaresLights nodes then Err TypeError else Ok JSUndefined.
Proof. apply lights_loop_outcome. Qed.

(** X15: where the lights lookup of the registry is the one of the
    file, run on such an asset, no target path that goes through
    "extensions/KHR_lights/lights" resolves, whatever follows. *)
Theorem no_light_path_resolves (sameIndex : JSValue -> option string -> bool)
    (nodes : list INode) (context animationContext target : string)
    (rest : list string) (log : list Call) :
  plainPrototype ->
  (forall node, node ∈ nodes -> declaresLights node = true ->
     exists entry, getProperty (node_extensions node) "KHR_LIGHTS" = Ok entry /\
                   isNullish entry = true) ->
  (forall index, invoke LightsGetTarget index
                 = outcomeOf (lights_getTarget sameIndex (Some nodes) index)) ->
  split "/" target = "extensions" :: "KHR_lights" :: "lights" :: rest ->
  exists e, (getAnimationObject context animationContext target log).1 = Err e.
Proof.
  intros Hplain Hspelled Hinvoke Hsplit.
  assert (Hcall : forall index,
            invoke LightsGetTarget index = Throws "TypeError" \/
            invoke LightsGetTarget index = Returned JSUndefined).
  { intros index. rewrite Hinvoke. cbn [lights_getTarget].
    rewrite (lights_loop_outcome _ _ _ Hspelled).
    destruct (existsb declaresLights nodes); [left|right]; reflexivity. }
  unfold getAnimationObject. rewrite Hsplit.
  destruct rest as [|index rest].
  - walk_known Hplain. destruct (Hcall None) as [-> | ->]; eexists; reflexivity.
  - walk_known Hplain. destruct (Hcall (Some index)) as [-> | ->]; eexists; reflexivity.
Qed.

End LightsFacts.

(** ** More of the code on the scene *)

Lemma empty_segment_at_loop_head_witness :
  @walk sceneHost "/channels/0" "materials/0//emissiveFactor" pathProperties initialWalkState
    (["materials"; "0"] ++ "" :: ["emissiveFactor"]) []
  = @walk sceneHost "/channels/0" "materials/0//emissiveFactor" pathProperties
      initialWalkState (["materials"; "0"] ++ ["emissiveFactor"]) [].
Proof.
  eapply (@empty_segment_at_loop_head sceneHost).
  eapply arrives_index; [reflexivity|apply arrives_here].
Defined.

Lemma resolved_object_from_last_lookup_witness :
  ([(MaterialsGetTarget, Some "0")] = [] /\ JSHost 0 = JSNull) \/
  (exists calls f index,
     [(MaterialsGetTarget, Some "0")] = [] ++ calls ++ [(f, index)] /\
     @invoke sceneHost f index = Returned (JSHost 0) /\ isNullish (JSHost 0) = false).
Proof.
  apply (@resolved_object_from_last_lookup sceneHost "/channels/0" "/animations/0"
           "materials/0/emissiveFactor" [] [(MaterialsGetTarget, Some "0")]
           {| targetPath := "emissive"; animationType := JSNum ANIMATIONTYPE_COLOR3;
              object := JSHost 0 |}).
  reflexivity.
Defined.

Lemma empty_path_is_unresolved_witness :
  (forall log,
     @getAnimationObject sceneHost "/channels/0" "/animations/0" "//" log
     = (Ok {| targetPath := ""; animationType := JSNum 0; object := JSNull |}, log)) /\
  (forall (F : Type) (data : IEXTPropertyAnimationSamplerData F) log group,
     (@channelCallback sceneHost F "/channels/0" "/animations/0" "//" data (log, group)).2
     = (log, group)).
Proof.
  apply (@empty_path_is_unresolved sceneHost "/channels/0" "/animations/0" "//").
  repeat constructor.
Defined.

Lemma light_color_is_scalar_witness :
  exists primary,
    @channelCallback lightHost Z "/channels/0" "/animations/0"
      "extensions/KHR_lights/lights/0/color" colorData ([], emptyGroup Z)
    = (Ok {| babylonAnimation := primary; alphaBabylonAnimation := None |},
       ([] ++ [(LightsGetTarget, Some "0")],
        addTargetedAnimation primary (JSHost 3) (emptyGroup Z))) /\
    dataType primary = JSNum 0.
Proof.
  eexists. split.
  - apply (@light_color_is_scalar lightHost Z "/channels/0" "/animations/0"
             "extensions/KHR_lights/lights/0/color" "0" (JSHost 3) colorData []
             (emptyGroup Z)).
    + intros props key _. reflexivity.
    + reflexivity.
    + reflexivity.
    + reflexivity.
  - reflexivity.
Defined.

Lemma composer_missing_witness :
  @assembleChannel sceneHost Z colorData matrixTarget (emptyGroup Z)
  = (Err TypeError, emptyGroup Z).
Proof.
  apply (proj1 (@composer_missing sceneHost Z colorData matrixTarget (emptyGroup Z) eq_refl)).
  discriminate.
Defined.

Lemma color4_cubic_spline_witness :
  exists primary alpha group',
    @assembleChannel sceneHost Z cubicData colorTarget (emptyGroup Z)
      = (Ok {| babylonAnimation := primary; alphaBabylonAnimation := Some alpha |}, group') /\
    length (keys primary) = 1 /\
    length (keys alpha) = 1.
Proof.
  destruct (@color4_cubic_spline sceneHost Z cubicData colorTarget (emptyGroup Z)
              eq_refl eq_refl)
    as (primary & alpha & group' & Hrun & Hprimary & Halpha & _).
  exists primary, alpha, group'. repeat split; assumption.
Defined.

Lemma nothing_cached_in_twoSamplers :
  Forall (fun sampler => _data sampler = None) (animation_samplers twoSamplers).
Proof. repeat constructor. Qed.

Lemma samplers_never_share_a_promise_witness :
  promise_id {| promise_id := 0; awaits_input := {| accessor_index := 0 |};
                awaits_output := {| accessor_index := 1 |}; then_interpolation := LINEAR |}
  <> promise_id {| promise_id := 1; awaits_input := {| accessor_index := 0 |};
                   awaits_output := {| accessor_index := 1 |}; then_interpolation := STEP |}.
Proof.
  pose (events := [Decode "/animations/0/samplers/0" 0; Settle 0;
                   Decode "/animations/0/samplers/1" 1]).
  apply (samplers_never_share_a_promise events twoSamplers
           (run events twoSamplers).2 (run events twoSamplers).1
           nothing_cached_in_twoSamplers (surjective_pairing _) 0 1).
  - lia.
  - vm_compute. apply list_elem_of_here.
  - vm_compute. apply list_elem_of_further, list_elem_of_here.
Defined.

Lemma answered_mode_is_declared_witness :
  Forall cacheAgrees
    (animation_samplers
       (run [Decode "/animations/0/samplers/1" 1; Decode "/animations/0/samplers/1" 1]
            twoSamplers).2).
Proof.
  pose (events := [Decode "/animations/0/samplers/1" 1;
                   Decode "/animations/0/samplers/1" 1]).
  apply (answered_mode_is_declared events twoSamplers
           (run events twoSamplers).2 (run events twoSamplers).1).
  - repeat constructor; intros p Hp; discriminate.
  - apply surjective_pairing.
Defined.


Lemma scene_nodes_spelled :
  forall node, node ∈ scene_nodes -> @declaresLights sceneHost node = true ->
    exists entry, @getProperty sceneHost (node_extensions node) "KHR_LIGHTS" = Ok entry /\
                  isNullish entry = true.
Proof.
  intros node Hnode Hdeclares. apply list_elem_of_In in Hnode. simpl in Hnode.
  destruct Hnode as [<-|[<-|[]]]; [discriminate|].
  exists JSUndefined. split; reflexivity.
Qed.

Lemma lights_lookup_finds_no_light_witness :
  @lights_getTarget sceneHost (fun _ _ => true) (Some scene_nodes) (Some "0")
  = if existsb (@declaresLights sceneHost) scene_nodes then Err TypeError else Ok JSUndefined.
Proof.
  apply (@lights_lookup_finds_no_light sceneHost (fun _ _ => true) scene_nodes (Some "0")).
  exact scene_nodes_spelled.
Defined.

Lemma no_light_path_resolves_witness :
  exists e,
    (@getAnimationObject nodesHost "/channels/0" "/animations/0"
       "extensions/KHR_lights/lights/0/intensity" []).1 = Err e.
Proof.
  apply (@no_light_path_resolves nodesHost (fun _ _ => true) scene_nodes "/channels/0"
           "/animations/0" "extensions/KHR_lights/lights/0/intensity" ["0"; "intensity"] []).
  - intros props key _. reflexivity.
  - exact scene_nodes_spelled.
  - intros index. reflexivity.
  - reflexivity.
Defined.
